(** * Shallow embedding of [mantaray/textwidget_tags.py]

    Python [str] values are modelled as lists of code points ([list nat]);
    the tag names produced by [parse_text] are plain ASCII and are kept as
    Rocq [string]s.  Exceptions are modelled by a small error monad. *)

From Stdlib Require Import List Arith Lia Bool Ascii String.
From Stdlib Require Import Numbers.DecimalString Permutation.
Import ListNotations.

Open Scope list_scope.

(** ** Python text *)

Definition text := list nat.

(** Code points of an ASCII literal, used to write concrete inputs. *)
Definition cps (s : string) : text := map nat_of_ascii (list_ascii_of_string s).

Definition char_STX : nat := 2.   (* \x02 *)
Definition char_ETX : nat := 3.   (* \x03 *)
Definition char_SI  : nat := 15.  (* \x0f *)
Definition char_US  : nat := 31.  (* \x1f *)
Definition char_comma : nat := 44.
Definition char_lparen : nat := 40.
Definition char_rparen : nat := 41.
Definition char_space : nat := 32.
Definition char_newline : nat := 10.

(** The regex character class [[0-9]]. *)
Definition is_digit (c : nat) : bool := (48 <=? c) && (c <=? 57).

(** [int(s)] on a string of ASCII digits. *)
Definition py_int (s : text) : nat :=
  fold_left (fun acc d => 10 * acc + (d - 48)) s 0.

(** ["%d" % n] *)
Definition show_nat (n : nat) : string := NilEmpty.string_of_uint (Nat.to_uint n).

Definition text_eqb (a b : text) : bool :=
  if list_eq_dec Nat.eq_dec a b then true else false.

(** [s.startswith(p)] *)
Fixpoint startswith (s p : text) {struct p} : bool :=
  match p, s with
  | [], _ => true
  | c :: p', d :: s' => (c =? d) && startswith s' p'
  | _ :: _, [] => false
  end.

(** [s.lstrip(chars)] and [s.rstrip(chars)] *)
Fixpoint lstrip (chars : list nat) (s : text) : text :=
  match s with
  | [] => []
  | c :: s' => if existsb (Nat.eqb c) chars then lstrip chars s' else s
  end.

Definition rstrip (chars : list nat) (s : text) : text :=
  rev (lstrip chars (rev s)).

(** ** Exceptions *)

Inductive exn := AssertionError | ValueError.

Inductive result (A : Type) : Type :=
| Ok (a : A)
| Err (e : exn).
Arguments Ok {A} a.
Arguments Err {A} e.

Definition bind {A B} (m : result A) (f : A -> result B) : result B :=
  match m with Ok a => f a | Err e => Err e end.

Notation "x <- m ;; k" := (bind m (fun x => k))
  (at level 61, m at next level, right associativity).

(** ** The palette [_MIRC_COLORS] *)

Definition MIRC_COLORS : list (nat * string) :=
  [(0, "#ffffff"); (1, "#000000"); (2, "#00007f"); (3, "#009300");
   (4, "#ff0000"); (5, "#7f0000"); (6, "#9c009c"); (7, "#fc7f00");
   (8, "#ffff00"); (9, "#00fc00"); (10, "#009393"); (11, "#00ffff");
   (12, "#0000fc"); (13, "#ff00ff"); (14, "#7f7f7f"); (15, "#d2d2d2")]%string.

(** [n in _MIRC_COLORS] *)
Definition in_mirc_colors (n : nat) : bool :=
  existsb (fun kv => fst kv =? n) MIRC_COLORS.

(** ** The regex [\x02|\x1f|\x03[0-9]{1,2}(?:,[0-9]{1,2})?|\x0f]

    [digits12 s] is the greedy [[0-9]{1,2}] at the start of [s]: the digits
    matched and the rest. *)
Definition digits12 (s : text) : option (text * text) :=
  match s with
  | d1 :: s1 =>
      if is_digit d1 then
        match s1 with
        | d2 :: s2 => if is_digit d2 then Some ([d1; d2], s2) else Some ([d1], s1)
        | [] => Some ([d1], [])
        end
      else None
  | [] => None
  end.

(** A match of [style_regex] at the start of [s]: the matched text and the
    rest.  The four alternatives start with distinct characters; the quantifiers
    are greedy and nothing follows them, so the first (greedy) choice is the
    one the regex engine returns. *)
Definition style_match (s : text) : option (text * text) :=
  match s with
  | [] => None
  | c :: s1 =>
      if c =? char_STX then Some ([c], s1)
      else if c =? char_US then Some ([c], s1)
      else if c =? char_ETX then
        match digits12 s1 with
        | None => None
        | Some (fgd, s2) =>
            match s2 with
            | k :: s3 =>
                if k =? char_comma then
                  match digits12 s3 with
                  | Some (bgd, s4) => Some (c :: fgd ++ k :: bgd, s4)
                  | None => Some (c :: fgd, s2)
                  end
                else Some (c :: fgd, s2)
            | [] => Some (c :: fgd, [])
            end
        end
      else if c =? char_SI then Some ([c], s1)
      else None
  end.

(** ** [re.split("(" + style_regex + ")", text)]

    The scan keeps the text before the first match and, for every match, the
    matched text and the text up to the next match.  Python's result list is
    the flattening [t0, m1, t1, m2, t2, ...]. *)
Fixpoint split_tokens_fuel (fuel : nat) (s : text) : text * list (text * text) :=
  match fuel with
  | 0 => (s, [])
  | S fuel' =>
      match style_match s with
      | Some (m, rest) =>
          let (t, ms) := split_tokens_fuel fuel' rest in ([], (m, t) :: ms)
      | None =>
          match s with
          | [] => ([], [])
          | c :: s' => let (t, ms) := split_tokens_fuel fuel' s' in (c :: t, ms)
          end
      end
  end.

Definition split_tokens (s : text) : text * list (text * text) :=
  split_tokens_fuel (S (List.length s)) s.

Definition re_split (s : text) : list text :=
  let (t0, ms) := split_tokens s in
  t0 :: flat_map (fun mt => [fst mt; snd mt]) ms.

(** [l[0::2]] and [l[1::2]] *)
Fixpoint evens {A} (l : list A) : list A :=
  match l with
  | [] => []
  | x :: [] => [x]
  | x :: _ :: l' => x :: evens l'
  end.

Fixpoint odds {A} (l : list A) : list A :=
  match l with
  | [] => []
  | _ :: [] => []
  | _ :: y :: l' => y :: odds l'
  end.

(** ** [parse_text] *)

Record style := mkStyle { fg : option nat; bg : option nat; underline : bool }.

Definition style0 : style := mkStyle None None false.

(** [re.fullmatch(r"\x03([0-9]{1,2})(,[0-9]{1,2})?", style_spec)]: the two
    groups.  Backtracking the greedy [{1,2}] to one digit leaves a digit, which
    neither [,] nor the end of the string accepts, so the greedy choice is the
    only one that can succeed. *)
Definition color_fullmatch (s : text) : option (text * option text) :=
  match s with
  | c :: s1 =>
      if c =? char_ETX then
        match digits12 s1 with
        | Some (fgd, []) => Some (fgd, None)
        | Some (fgd, k :: s3) =>
            if k =? char_comma then
              match digits12 s3 with
              | Some (bgd, []) => Some (fgd, Some (k :: bgd))
              | _ => None
              end
            else None
        | None => None
        end
      else None
  | [] => None
  end.

(** One iteration of the [for] loop's [if/elif] chain on [style_spec]. *)
Definition apply_style_spec (st : style) (style_spec : text) : result style :=
  if text_eqb style_spec [] then Ok st
  else if text_eqb style_spec [char_STX] then Ok st
  else if text_eqb style_spec [char_US] then
    Ok (mkStyle (fg st) (bg st) true)
  else if startswith style_spec [char_ETX] then
    match color_fullmatch style_spec with
    | None => Err AssertionError
    | Some (fg_spec, bg_spec) =>
        let fg1 := py_int fg_spec in
        let fg' := if in_mirc_colors fg1 then Some fg1 else None in
        let bg' :=
          match bg_spec with
          | None => bg st
          | Some b =>
              let bg1 := py_int (lstrip [char_comma] b) in
              if in_mirc_colors bg1 then Some bg1 else None
          end in
        Ok (mkStyle fg' bg' (underline st))
    end
  else if text_eqb style_spec [char_SI] then
    Ok (mkStyle None None false)
  else Err ValueError.

Definition tags_of (st : style) : list string :=
  (match fg st with Some n => ["foreground-" ++ show_nat n]%string | None => [] end)
  ++ (match bg st with Some n => ["background-" ++ show_nat n]%string | None => [] end)
  ++ (if underline st then ["underline"%string] else []).

Definition run := (text * list string)%type.

(** The loop body: update the style, then yield the substring if it is not
    empty. *)
Fixpoint parse_loop (st : style) (ps : list (text * text)) : result (style * list run) :=
  match ps with
  | [] => Ok (st, [])
  | (style_spec, substring) :: ps' =>
      st' <- apply_style_spec st style_spec ;;
      let out := match substring with [] => [] | _ => [(substring, tags_of st')] end in
      r <- parse_loop st' ps' ;;
      Ok (fst r, out ++ snd r)
  end.

Definition parse_text (input : text) : result (list run) :=
  let parts := [] :: re_split input in
  if negb (Nat.even (List.length parts)) then Err AssertionError
  else
    r <- parse_loop style0 (combine (evens parts) (odds parts)) ;;
    Ok (snd r).

(** ** Shapes of the regex matches *)

Inductive digits_ok : text -> Prop :=
| D1 a : is_digit a = true -> digits_ok [a]
| D2 a b : is_digit a = true -> is_digit b = true -> digits_ok [a; b].

Inductive spec_shape : text -> Prop :=
| Shape_STX : spec_shape [char_STX]
| Shape_US : spec_shape [char_US]
| Shape_SI : spec_shape [char_SI]
| Shape_fg d : digits_ok d -> spec_shape (char_ETX :: d)
| Shape_fg_bg d e : digits_ok d -> digits_ok e ->
    spec_shape (char_ETX :: d ++ char_comma :: e).

(** ** Auxiliary definitions used in the statements *)

Definition starts_digit_or_comma (q : text) : bool :=
  match q with c :: _ => is_digit c || (c =? char_comma) | [] => false end.

(** [t] contains no match of [style_regex]. *)
Fixpoint no_style_code (t : text) : bool :=
  match t with
  | [] => true
  | _ :: t' =>
      match style_match t with
      | Some _ => false
      | None => no_style_code t'
      end
  end.

Definition final_style (p : text) : style :=
  match parse_loop style0 (([], fst (split_tokens p)) :: snd (split_tokens p)) with
  | Ok r => fst r
  | Err _ => style0
  end.

(** The style codes the regex finds in [q], in order. *)
Definition style_codes (q : text) : list text := map fst (snd (split_tokens q)).

Definition color_of (n : nat) : option nat :=
  if in_mirc_colors n then Some n else None.

Definition yield_run (sub : text) (st : style) : list run :=
  match sub with [] => [] | _ => [(sub, tags_of st)] end.

Definition sets_fg (m : text) : bool :=
  startswith m [char_ETX] || text_eqb m [char_SI].

Definition sets_bg (m : text) : bool :=
  (startswith m [char_ETX] && existsb (Nat.eqb char_comma) m) || text_eqb m [char_SI].

Definition clears_underline (m : text) : bool := text_eqb m [char_SI].

(** [re.sub(style_regex, '', text)]: the input with every style code removed. *)
Fixpoint remove_style_codes_fuel (fuel : nat) (s : text) : text :=
  match fuel with
  | 0 => s
  | S fuel' =>
      match style_match s with
      | Some (_, rest) => remove_style_codes_fuel fuel' rest
      | None =>
          match s with
          | [] => []
          | c :: s' => c :: remove_style_codes_fuel fuel' s'
          end
      end
  end.

Definition remove_style_codes (s : text) : text :=
  remove_style_codes_fuel (S (List.length s)) s.

(** ** [find_and_tag_urls]

    The text widget's content is a list of code points (lines separated by
    newline characters); a Tk index is an offset into it. *)

(** [s.split(sep)[0]] *)
Fixpoint take_until (sep : nat) (s : text) : text :=
  match s with
  | [] => []
  | c :: s' => if c =? sep then [] else c :: take_until sep s'
  end.

(** [textwidget.get(a, f"{a} lineend")] *)
Definition tk_get_to_lineend (content : text) (a : nat) : text :=
  take_until char_newline (skipn a content).

(** [textwidget.get(a, b)] *)
Definition tk_get (content : text) (a b : nat) : text := firstn (b - a) (skipn a content).

(** [". , ? !"] *)
Definition url_punct : list nat := [46; 44; 63; 33].

(** The four [split] calls. *)
Definition url_candidate (line : text) : text :=
  let url := take_until char_space line in
  let url := take_until 39 url in   (* ' *)
  let url := take_until 34 url in   (* double quote *)
  take_until 96 url.                (* ` *)

(** The three [rstrip] calls. *)
Definition strip_url (url : text) : text :=
  let url := rstrip url_punct url in
  let url := if negb (existsb (Nat.eqb char_lparen) url) then rstrip [char_rparen] url else url in
  rstrip url_punct url.

Section FindAndTagUrls.

(** [textwidget.search(r"\mhttps?://[a-z0-9:]", search_start, end, nocase=True,
    regexp=True)]: Tk's regex search, [None] for the empty string. *)
Variable tk_search : text -> nat -> nat -> option nat.

(** The [while True] loop, run for at most [fuel] iterations: the ranges
    given to [textwidget.tag_add("url", ...)], in order. *)
Fixpoint find_and_tag_urls (fuel : nat) (content : text) (search_start stop : nat)
  : list (nat * nat) :=
  match fuel with
  | 0 => []
  | S fuel' =>
      match tk_search content search_start stop with
      | None => []
      | Some match_start =>
          let url := strip_url (url_candidate (tk_get_to_lineend content match_start)) in
          let match_end := match_start + List.length url in
          (match_start, match_end) :: find_and_tag_urls fuel' content (match_end + 1) stop
      end
  end.

End FindAndTagUrls.

(** [u] is [s] with its trailing characters from [chars] removed (the words
    of the spec, independent of how [rstrip] computes it). *)
Definition is_rstrip (chars : list nat) (s u : text) : Prop :=
  exists w, s = u ++ w /\ Forall (fun c => In c chars) w /\
            (forall u' c, u = u' ++ [c] -> ~ In c chars).

(** A tag list part that is empty or one palette tag [prefix ++ n]. *)
Definition palette_tag (prefix : string) (l : list string) : Prop :=
  l = [] \/ exists n, n <= 15 /\ l = [(prefix ++ show_nat n)%string].

(** ** Tk tag ranges and [_on_link_clicked] *)

(** [rs] lists ranges [(a, b)] (first character, character after the last)
    with [lo <= a <= b], each range starting after the end of the previous
    one with at least one character in between. *)
Fixpoint ranges_from (lo : nat) (rs : list (nat * nat)) : Prop :=
  match rs with
  | [] => True
  | (a, b) :: rs' => lo <= a /\ a <= b /\ ranges_from (S b) rs'
  end.

(** Tk stores the characters carrying a tag as a sorted list of disjoint,
    non-adjacent ranges; adding [a, b) merges it with the ranges it overlaps
    or touches. *)
Fixpoint add_range (a b : nat) (rs : list (nat * nat)) : list (nat * nat) :=
  match rs with
  | [] => [(a, b)]
  | (c, d) :: rs' =>
      if d <? a then (c, d) :: add_range a b rs'
      else if b <? c then (a, b) :: rs
      else add_range (Nat.min a c) (Nat.max b d) rs'
  end.

(** [textwidget.tag_add(tag, a, b)] on the ranges of [tag]: an empty range
    adds nothing. *)
Definition tag_add (rs : list (nat * nat)) (a b : nat) : list (nat * nat) :=
  if a <? b then add_range a b rs else rs.

(** The [tag_add("url", ...)] calls of [find_and_tag_urls], in order. *)
Definition tag_add_all (rs : list (nat * nat)) (ranges : list (nat * nat)) :=
  fold_left (fun acc ab => tag_add acc (fst ab) (snd ab)) ranges rs.

(** [tag_prevrange(tag, idx)]: the last range of the tag whose first
    character is before [idx]. *)
Fixpoint tag_prevrange (rs : list (nat * nat)) (idx : nat) : option (nat * nat) :=
  match rs with
  | [] => None
  | (a, b) :: rs' =>
      match tag_prevrange rs' idx with
      | Some r => Some r
      | None => if a <? idx then Some (a, b) else None
      end
  end.

(** [_on_link_clicked(tag, link_click_callback, event)] with the mouse on
    character [current]: the arguments passed to [link_click_callback], or
    the failed [assert tag_range]. [tag_ranges] gives the ranges of each tag. *)
Definition on_link_clicked (tag : string) (tag_ranges : string -> list (nat * nat))
    (content : text) (current : nat) : result (string * text) :=
  match tag_prevrange (tag_ranges tag) (current + 1) with
  | None => Err AssertionError
  | Some (start, end_) => Ok (tag, tk_get content start end_)
  end.

(** A search for "http" at or after [from] and before [stop], used to run
    [find_and_tag_urls] on concrete texts. *)
Fixpoint http_search_fuel (fuel : nat) (content : text) (i stop : nat) : option nat :=
  match fuel with
  | 0 => None
  | S fuel' =>
      if stop <=? i then None
      else if startswith (skipn i content) (cps "http") then Some i
      else http_search_fuel fuel' content (S i) stop
  end.

Definition http_search (content : text) (from stop : nat) : option nat :=
  http_search_fuel (stop - from) content from stop.

(** The regex [\mhttps?://[a-z0-9:]] of the search, with [nocase=True]:
    ASCII letters are compared after folding to lower case. *)
Definition fold_case (c : nat) : nat := if (65 <=? c) && (c <=? 90) then c + 32 else c.

(** The lower-case pattern [pat] is a prefix of [s], ignoring case. *)
Fixpoint ci_prefix (pat s : text) : bool :=
  match pat, s with
  | [], _ => true
  | p :: pat', c :: s' => (fold_case c =? p) && ci_prefix pat' s'
  | _ :: _, [] => false
  end.

(** [[a-z0-9:]], ignoring case. *)
Definition url_class (c : nat) : bool :=
  let c' := fold_case c in ((97 <=? c') && (c' <=? 122)) || is_digit c' || (c' =? 58).

(** [pre] followed by one character of [[a-z0-9:]], at the start of [s]. *)
Definition url_match_with (pre s : text) : option text :=
  if ci_prefix pre s && url_class (nth (List.length pre) s 0)
  then Some (firstn (S (List.length pre)) s) else None.

(** The text matched by [https?://[a-z0-9:]] at the start of [s]; the
    greedy [s?] tries "https://" first. *)
Definition url_match (s : text) : option text :=
  match url_match_with (cps "https://") s with
  | Some m => Some m
  | None => url_match_with (cps "http://") s
  end.

(** [\m]: a word starts at [i] (letters, digits and [_] are word characters). *)
Definition is_word_char (c : nat) : bool := (url_class c && negb (c =? 58)) || (c =? 95).

Definition word_start (content : text) (i : nat) : bool :=
  match i with 0 => true | S j => negb (is_word_char (nth j content 0)) end.

(** A search for the regex from [i] up to [stop]. *)
Fixpoint url_search_fuel (fuel : nat) (content : text) (i stop : nat) : option nat :=
  match fuel with
  | 0 => None
  | S fuel' =>
      if stop <=? i then None
      else if word_start content i &&
              match url_match (skipn i content) with Some _ => true | None => false end
      then Some i
      else url_search_fuel fuel' content (S i) stop
  end.

Definition url_search (content : text) (from stop : nat) : option nat :=
  url_search_fuel (stop - from) content from stop.

(** The characters at which [url_candidate] cuts the text. *)
Definition url_safe (c : nat) : bool :=
  negb (existsb (Nat.eqb c) [char_space; 39; 34; 96; char_newline]).

(** ** [config_tags] on a Tk text widget

    The part of the widget that [config_tags] touches: its options, its tags
    in priority order (lowest first), each tag's options and each tag's
    event bindings.  Option and binding tables are association lists whose
    first entry for a key is the current one. *)

Inductive optval := OColor (c : string) | OBool (b : bool).

(** The callbacks bound by [config_tags]:
    [partial(_on_link_clicked, tag, link_click_callback)] and the two
    lambdas setting the cursor. *)
Inductive handler := LinkClicked (tag : string) | SetCursor (cursor : string).

Record widget := mkWidget {
  w_options : list (string * string);
  tag_order : list string;
  tag_opts : list (string * list (string * optval));
  tag_bindings : list (string * list (string * handler))
}.

Fixpoint assoc_get {V} (k : string) (l : list (string * V)) : option V :=
  match l with
  | [] => None
  | (k', v) :: l' => if String.eqb k k' then Some v else assoc_get k l'
  end.

Definition assoc_set {V} (k : string) (v : V) (l : list (string * V)) := (k, v) :: l.

Definition tag_exists (w : widget) (t : string) : bool := existsb (String.eqb t) (tag_order w).

(** A tag that is configured or bound is created if needed, with a priority
    higher than every existing tag. *)
Definition ensure_tag (w : widget) (t : string) : widget :=
  if tag_exists w t then w
  else mkWidget (w_options w) (tag_order w ++ [t]) (tag_opts w) (tag_bindings w).

Definition tag_options (opts : list (string * list (string * optval))) (t : string) :=
  match assoc_get t opts with Some o => o | None => [] end.

Definition configure_opts (opts : list (string * list (string * optval))) (t : string)
    (kvs : list (string * optval)) :=
  assoc_set t (fold_left (fun acc kv => assoc_set (fst kv) (snd kv) acc) kvs
                 (tag_options opts t)) opts.

(** [textwidget.tag_configure(t, key=value, ...)] *)
Definition tag_configure (w : widget) (t : string) (kvs : list (string * optval)) : widget :=
  let w := ensure_tag w t in
  mkWidget (w_options w) (tag_order w) (configure_opts (tag_opts w) t kvs) (tag_bindings w).

(** [tag_option w t k]: the value of option [k] of tag [t]. *)
Definition tag_option (w : widget) (t k : string) : option optval :=
  assoc_get k (tag_options (tag_opts w) t).

Fixpoint insert_after (a t : string) (l : list string) : list string :=
  match l with
  | [] => []
  | x :: l' => if String.eqb x a then x :: t :: l' else x :: insert_after a t l'
  end.

Fixpoint insert_before (b t : string) (l : list string) : list string :=
  match l with
  | [] => []
  | x :: l' => if String.eqb x b then t :: x :: l' else x :: insert_before b t l'
  end.

(** [textwidget.tag_raise(t, above)]: [t] just above [above]; a Tcl error
    ([None]) when one of the tags does not exist. *)
Definition tag_raise (w : widget) (t above : string) : option widget :=
  if tag_exists w t && tag_exists w above then
    if String.eqb t above then Some w
    else Some (mkWidget (w_options w)
                 (insert_after above t (remove string_dec t (tag_order w)))
                 (tag_opts w) (tag_bindings w))
  else None.

(** [textwidget.tag_lower(t, below)]: [t] just below [below]. *)
Definition tag_lower (w : widget) (t below : string) : option widget :=
  if tag_exists w t && tag_exists w below then
    if String.eqb t below then Some w
    else Some (mkWidget (w_options w)
                 (insert_before below t (remove string_dec t (tag_order w)))
                 (tag_opts w) (tag_bindings w))
  else None.

(** [textwidget.tag_bind(t, sequence, h)] *)
Definition tag_bind (w : widget) (t sequence : string) (h : handler) : widget :=
  let w := ensure_tag w t in
  let old := match assoc_get t (tag_bindings w) with Some b => b | None => [] end in
  mkWidget (w_options w) (tag_order w) (tag_opts w)
    (assoc_set t (assoc_set sequence h old) (tag_bindings w)).

(** [textwidget.config(key=value, ...)] *)
Definition widget_config (w : widget) (kvs : list (string * string)) : widget :=
  mkWidget (fold_left (fun acc kv => assoc_set (fst kv) (snd kv) acc) kvs (w_options w))
    (tag_order w) (tag_opts w) (tag_bindings w).

(** [textwidget[k]] *)
Definition widget_cget (w : widget) (k : string) : string :=
  match assoc_get k (w_options w) with Some v => v | None => EmptyString end.

Definition tag_binding (w : widget) (t sequence : string) : option handler :=
  match assoc_get t (tag_bindings w) with
  | Some b => assoc_get sequence b
  | None => None
  end.

Definition obind {A B} (m : option A) (f : A -> option B) : option B :=
  match m with Some a => f a | None => None end.

Notation "x <-? m ;; k" := (obind m (fun x => k))
  (at level 61, m at next level, right associativity).

(** [FOREGROUND = _MIRC_COLORS[0]] *)
Definition FOREGROUND : string :=
  match find (fun kv => fst kv =? 0) MIRC_COLORS with Some kv => snd kv | None => EmptyString end.

Definition BACKGROUND : string := "#242323".

Definition fg_tag (number : nat) : string := ("foreground-" ++ show_nat number)%string.
Definition bg_tag (number : nat) : string := ("background-" ++ show_nat number)%string.

(** [for lower_tag in ...: textwidget.tag_lower(lower_tag, below)] *)
Fixpoint lower_all (ts : list string) (below : string) (w : widget) : option widget :=
  match ts with
  | [] => Some w
  | t :: ts' => w <-? tag_lower w t below ;; lower_all ts' below w
  end.

(** [for upper_tag in ...: textwidget.tag_raise(upper_tag, above)] *)
Fixpoint raise_all (ts : list string) (above : string) (w : widget) : option widget :=
  match ts with
  | [] => Some w
  | t :: ts' => w <-? tag_raise w t above ;; raise_all ts' above w
  end.

(** [for number, hexcolor in _MIRC_COLORS.items(): ...] *)
Fixpoint config_colors (colors : list (nat * string)) (w : widget) : option widget :=
  match colors with
  | [] => Some w
  | (number, hexcolor) :: cs =>
      let w := tag_configure w (fg_tag number) [("foreground", OColor hexcolor)]%string in
      let w := tag_configure w (bg_tag number) [("background", OColor hexcolor)]%string in
      w <-? tag_raise w (fg_tag number) "sent-privmsg" ;;
      w <-? tag_raise w (bg_tag number) "sent-privmsg" ;;
      w <-? tag_raise w (fg_tag number) "received-privmsg" ;;
      w <-? tag_raise w (bg_tag number) "received-privmsg" ;;
      config_colors cs w
  end%string.

(** [for tag in ["url", "other-nick"]: textwidget.tag_bind(...)] *)
Fixpoint bind_clickable (ts : list string) (default_cursor : string) (w : widget) : widget :=
  match ts with
  | [] => w
  | tag :: ts' =>
      let w := tag_bind w tag "<Button-1>" (LinkClicked tag) in
      let w := tag_bind w tag "<Enter>" (SetCursor "hand2") in
      let w := tag_bind w tag "<Leave>" (SetCursor default_cursor) in
      bind_clickable ts' default_cursor w
  end%string.

Definition config_tags (w : widget) : option widget := (
  let w := widget_config w [("fg", FOREGROUND); ("bg", BACKGROUND)] in
  let w := tag_configure w "url" [("underline", OBool true)] in
  let w := tag_configure w "underline" [("underline", OBool true)] in
  let w := tag_configure w "pinged" [("foreground", OColor "#a1e37b")] in
  let w := tag_configure w "error" [("foreground", OColor "#bd2f2f")] in
  let w := tag_configure w "info" [("foreground", OColor "#FFE6C7")] in
  let w := tag_configure w "history-selection" [("background", OColor "#5a5c50")] in
  let w := tag_configure w "channel" [("foreground", OColor "#f7e452")] in
  let w := tag_configure w "self-nick"
             [("foreground", OColor "#de8c28"); ("underline", OBool true)] in
  let w := tag_configure w "other-nick"
             [("foreground", OColor "#e7b678"); ("underline", OBool true)] in
  let w := tag_configure w "received-privmsg" [("foreground", OColor FOREGROUND)] in
  let w := tag_configure w "sent-privmsg" [("foreground", OColor FOREGROUND)] in
  w <-? lower_all ["info"; "error"; "sent-privmsg"; "received-privmsg"] "pinged" w ;;
  w <-? raise_all ["history-selection"; "channel"; "self-nick"; "other-nick"] "pinged" w ;;
  w <-? config_colors MIRC_COLORS w ;;
  let default_cursor := widget_cget w "cursor" in
  Some (bind_clickable ["url"; "other-nick"] default_cursor w))%string.

(** The tags moved by [config_tags], by increasing priority: the colour
    tags sit between the privmsg tags and "pinged". *)
Definition config_tags_stack : list string :=
  ["info"; "error"; "sent-privmsg"; "received-privmsg"]%string
  ++ flat_map (fun n => [bg_tag (15 - n); fg_tag (15 - n)]) (seq 0 16)
  ++ ["pinged"; "other-nick"; "self-nick"; "channel"; "history-selection"]%string.

(** A Tk text widget with no tags but "sel". *)
Definition fresh_widget : widget := mkWidget [("cursor", "xterm")]%string ["sel"%string] [] [].

(** The effect of [config_colors] on a stretch [K] of the priority list and
    on the tag option table. *)
Definition raise_in (t above : string) (K : list string) := insert_after above t (remove string_dec t K).
Definition lower_in (t below : string) (K : list string) := insert_before below t (remove string_dec t K).

Fixpoint colors_K (colors : list (nat * string)) (K : list string) : list string :=
  match colors with
  | [] => K
  | (number, _) :: cs =>
      colors_K cs
        (raise_in (bg_tag number) "received-privmsg"
          (raise_in (fg_tag number) "received-privmsg"
            (raise_in (bg_tag number) "sent-privmsg"
              (raise_in (fg_tag number) "sent-privmsg" K))))
  end%string.

Fixpoint colors_opts (colors : list (nat * string)) (opts : list (string * list (string * optval))) :=
  match colors with
  | [] => opts
  | (number, hexcolor) :: cs =>
      colors_opts cs
        (configure_opts (configure_opts opts (fg_tag number) [("foreground", OColor hexcolor)])
           (bg_tag number) [("background", OColor hexcolor)])
  end%string.

(** The statements of [config_tags] before its loops. *)
Definition config_tags_prelude (w : widget) : widget := (
  let w := widget_config w [("fg", FOREGROUND); ("bg", BACKGROUND)]%string in
  let w := tag_configure w "url" [("underline", OBool true)] in
  let w := tag_configure w "underline" [("underline", OBool true)] in
  let w := tag_configure w "pinged" [("foreground", OColor "#a1e37b")] in
  let w := tag_configure w "error" [("foreground", OColor "#bd2f2f")] in
  let w := tag_configure w "info" [("foreground", OColor "#FFE6C7")] in
  let w := tag_configure w "history-selection" [("background", OColor "#5a5c50")] in
  let w := tag_configure w "channel" [("foreground", OColor "#f7e452")] in
  let w := tag_configure w "self-nick"
             [("foreground", OColor "#de8c28"); ("underline", OBool true)] in
  let w := tag_configure w "other-nick"
             [("foreground", OColor "#e7b678"); ("underline", OBool true)] in
  let w := tag_configure w "received-privmsg" [("foreground", OColor FOREGROUND)] in
  tag_configure w "sent-privmsg" [("foreground", OColor FOREGROUND)])%string.

(** Both colours of a style are palette indices or unset. *)
Definition style_bounded (st : style) : Prop :=
  (fg st = None \/ exists n, n <= 15 /\ fg st = Some n) /\
  (bg st = None \/ exists n, n <= 15 /\ bg st = Some n).

(** [K] is a contiguous stretch of the priority list, which has no
    duplicates. *)
Definition Shape (K : list string) (w : widget) : Prop :=
  (exists X Y, tag_order w = X ++ K ++ Y) /\ NoDup (tag_order w).

(** Concrete inputs. *)
Definition url_sample : text := cps "see http://a.b/x. and (http://c.d) ok".

Definition configured_fresh_widget : widget :=
  match config_tags fresh_widget with Some w => w | None => fresh_widget end.

Lemma digits12_some s d r :
  digits12 s = Some (d, r) -> s = d ++ r /\ digits_ok d.
Proof.
  destruct s as [|a s]; simpl; [discriminate|].
  destruct (is_digit a) eqn:Ha; [|discriminate].
  destruct s as [|b s].
  - intros H; inversion H; subst; split; [reflexivity | now constructor].
  - destruct (is_digit b) eqn:Hb; intros H; inversion H; subst;
      split; try reflexivity; now constructor.
Qed.

Lemma digits12_full d : digits_ok d -> digits12 d = Some (d, []).
Proof. intros [a Ha | a b Ha Hb]; simpl; rewrite ?Ha, ?Hb; reflexivity. Qed.

Lemma digits12_app_nondigit d c r :
  digits_ok d -> is_digit c = false -> digits12 (d ++ c :: r) = Some (d, c :: r).
Proof. intros [a Ha | a b Ha Hb] Hc; simpl; rewrite ?Ha, ?Hb, ?Hc; reflexivity. Qed.

Lemma digit_not_ctrl c :
  is_digit c = true ->
  c <> char_comma /\ c <> char_STX /\ c <> char_ETX /\ c <> char_SI /\ c <> char_US.
Proof.
  unfold is_digit, char_comma, char_STX, char_ETX, char_SI, char_US.
  intros H; apply andb_prop in H as [H1 H2];
    apply Nat.leb_le in H1; apply Nat.leb_le in H2; lia.
Qed.

Lemma digits_ok_head d : digits_ok d -> exists a d', d = a :: d' /\ is_digit a = true.
Proof. intros [a Ha | a b Ha Hb]; eauto. Qed.

Lemma style_match_shape s m r :
  style_match s = Some (m, r) -> s = m ++ r /\ spec_shape m.
Proof.
  destruct s as [|c s1]; simpl; [discriminate|].
  destruct (c =? char_STX) eqn:E1;
    [intros H; inversion H; subst; apply Nat.eqb_eq in E1; subst; split; [reflexivity|constructor]|].
  destruct (c =? char_US) eqn:E2;
    [intros H; inversion H; subst; apply Nat.eqb_eq in E2; subst; split; [reflexivity|constructor]|].
  destruct (c =? char_ETX) eqn:E3.
  - apply Nat.eqb_eq in E3; subst.
    destruct (digits12 s1) as [[fgd s2]|] eqn:Ed; [|discriminate].
    apply digits12_some in Ed as [-> Hd].
    destruct s2 as [|k s3].
    + intros H; inversion H; subst; split; [reflexivity| now constructor].
    + destruct (k =? char_comma) eqn:Ek.
      * apply Nat.eqb_eq in Ek; subst.
        destruct (digits12 s3) as [[bgd s4]|] eqn:Eb.
        -- apply digits12_some in Eb as [-> He].
           intros H; inversion H; subst.
           split; [simpl; now rewrite <- app_assoc | now constructor].
        -- intros H; inversion H; subst; split; [reflexivity | now constructor].
      * intros H; inversion H; subst; split; [reflexivity | now constructor].
  - destruct (c =? char_SI) eqn:E4; [|discriminate].
    apply Nat.eqb_eq in E4; subst.
    intros H; inversion H; subst; split; [reflexivity | constructor].
Qed.

Lemma style_match_length s m r :
  style_match s = Some (m, r) -> List.length r < List.length s.
Proof.
  intros H; apply style_match_shape in H as [-> Hs].
  rewrite length_app; inversion Hs; subst; simpl; lia.
Qed.

(** ** The equation of the scan *)

Lemma split_tokens_fuel_indep n1 n2 s :
  List.length s < n1 -> List.length s < n2 ->
  split_tokens_fuel n1 s = split_tokens_fuel n2 s.
Proof.
  revert n2 s; induction n1 as [|n1 IH]; intros n2 s H1 H2; [lia|].
  destruct n2 as [|n2]; [lia|].
  simpl. destruct (style_match s) as [[m r]|] eqn:E.
  - pose proof (style_match_length _ _ _ E).
    rewrite (IH n2 r) by lia. reflexivity.
  - destruct s as [|c s']; [reflexivity|].
    simpl List.length in *. rewrite (IH n2 s') by lia. reflexivity.
Qed.

Lemma split_tokens_eq s :
  split_tokens s =
  match style_match s with
  | Some (m, rest) => let (t, ms) := split_tokens rest in ([], (m, t) :: ms)
  | None =>
      match s with
      | [] => ([], [])
      | c :: s' => let (t, ms) := split_tokens s' in (c :: t, ms)
      end
  end.
Proof.
  unfold split_tokens at 1; simpl.
  destruct (style_match s) as [[m r]|] eqn:E.
  - pose proof (style_match_length _ _ _ E).
    unfold split_tokens. rewrite (split_tokens_fuel_indep (List.length s) (S (List.length r)) r)
      by lia. reflexivity.
  - destruct s as [|c s']; [reflexivity|].
    reflexivity.
Qed.

(** ** The regex scan is local: a match ends before any character that
    could extend it. *)

Lemma digits12_app p q :
  (forall c q', q = c :: q' -> is_digit c = false) ->
  digits12 (p ++ q) = option_map (fun dr => (fst dr, snd dr ++ q)) (digits12 p).
Proof.
  intros Hq.
  destruct p as [|a [|b p2]]; simpl.
  - destruct q as [|c q']; [reflexivity|]. simpl. now rewrite (Hq c q' eq_refl).
  - destruct (is_digit a); [|reflexivity].
    destruct q as [|c q']; [reflexivity|]. simpl. now rewrite (Hq c q' eq_refl).
  - destruct (is_digit a); [|reflexivity].
    destruct (is_digit b); reflexivity.
Qed.

Lemma style_match_app p q :
  p <> [] -> starts_digit_or_comma q = false ->
  style_match (p ++ q) = option_map (fun mr => (fst mr, snd mr ++ q)) (style_match p).
Proof.
  intros Hp Hq.
  assert (Hnd : forall c q', q = c :: q' -> is_digit c = false).
  { intros c q' ->; simpl in Hq. now apply orb_false_iff in Hq as [? _]. }
  destruct p as [|c p1]; [congruence|]. simpl.
  destruct (c =? char_STX); [reflexivity|].
  destruct (c =? char_US); [reflexivity|].
  destruct (c =? char_ETX).
  - rewrite (digits12_app p1 q Hnd).
    destruct (digits12 p1) as [[fgd s2]|]; simpl; [|reflexivity].
    destruct s2 as [|k s3]; simpl.
    + destruct q as [|k q']; [reflexivity|].
      simpl in Hq. apply orb_false_iff in Hq as [_ Hk]. now rewrite Hk.
    + destruct (k =? char_comma); [|reflexivity].
      rewrite (digits12_app s3 q Hnd).
      destruct (digits12 s3) as [[bgd s4]|]; reflexivity.
  - destruct (c =? char_SI); reflexivity.
Qed.

Lemma style_match_not_continue q :
  style_match q <> None -> starts_digit_or_comma q = false.
Proof.
  destruct q as [|c q']; [reflexivity|]. intros H.
  destruct (is_digit c) eqn:Hd.
  - destruct (digit_not_ctrl c Hd) as (H1 & H2 & H3 & H4 & H5).
    exfalso; apply H; simpl.
    apply Nat.eqb_neq in H2, H3, H4, H5. now rewrite H2, H5, H3, H4.
  - simpl. rewrite Hd. simpl.
    destruct (c =? char_comma) eqn:Hc; [|reflexivity].
    apply Nat.eqb_eq in Hc; subst. exfalso; apply H; reflexivity.
Qed.

Lemma split_tokens_at_match q :
  style_match q <> None -> fst (split_tokens q) = [].
Proof.
  intros H. rewrite split_tokens_eq.
  destruct (style_match q) as [[m r]|]; [|congruence].
  destruct (split_tokens r); reflexivity.
Qed.

(** Splitting [p ++ q] where [q] is empty or starts with a match: the
    matches of [p] followed by those of [q]. *)
Lemma split_tokens_app p q :
  (q = [] \/ style_match q <> None) ->
  split_tokens (p ++ q) =
  (fst (split_tokens p), snd (split_tokens p) ++ snd (split_tokens q)).
Proof.
  intros Hq.
  destruct Hq as [-> | Hq].
  { rewrite app_nil_r. destruct (split_tokens p) as [t ms]. simpl.
    rewrite app_nil_r. reflexivity. }
  pose proof (style_match_not_continue q Hq) as Hc.
  remember (List.length p) as n eqn:Hn.
  revert p Hn; induction n as [n IH] using lt_wf_ind; intros p Hn.
  destruct p as [|c p1].
  - simpl. rewrite (surjective_pairing (split_tokens q)) at 1.
    rewrite (split_tokens_at_match q Hq). reflexivity.
  - rewrite split_tokens_eq.
    rewrite (style_match_app (c :: p1) q) by (discriminate || assumption).
    rewrite (split_tokens_eq (c :: p1)).
    destruct (style_match (c :: p1)) as [[m r]|] eqn:E; simpl option_map.
    + pose proof (style_match_length _ _ _ E).
      cbv iota beta.
      rewrite (IH (List.length r) ltac:(subst; auto) r eq_refl).
      destruct (split_tokens r) as [t ms]. reflexivity.
    + cbv iota beta. rewrite <- app_comm_cons. cbv iota beta. rewrite (IH (List.length p1) ltac:(subst; simpl; auto) p1 eq_refl).
      destruct (split_tokens p1) as [t ms]. reflexivity.
Qed.

Lemma split_tokens_shapes s :
  Forall (fun mt => spec_shape (fst mt)) (snd (split_tokens s)).
Proof.
  remember (List.length s) as n eqn:Hn.
  revert s Hn; induction n as [n IH] using lt_wf_ind; intros s Hn.
  rewrite split_tokens_eq.
  destruct (style_match s) as [[m r]|] eqn:E.
  - pose proof (style_match_length _ _ _ E).
    apply style_match_shape in E as [_ Hm].
    specialize (IH (List.length r) ltac:(subst; auto) r eq_refl).
    destruct (split_tokens r) as [t ms]. simpl in *. now constructor.
  - destruct s as [|c s']; [constructor|].
    specialize (IH (List.length s') ltac:(subst; simpl; auto) s' eq_refl).
    destruct (split_tokens s') as [t ms]. exact IH.
Qed.

(** ** The list [parts] and its pairing *)

Lemma combine_evens_odds (a b : text) (ms : list (text * text)) :
  combine (evens (a :: b :: flat_map (fun mt => [fst mt; snd mt]) ms))
          (odds (a :: b :: flat_map (fun mt => [fst mt; snd mt]) ms))
  = (a, b) :: ms.
Proof.
  revert a b; induction ms as [|[m t] ms IH]; intros a b; [reflexivity|].
  simpl in *. now rewrite IH.
Qed.

Lemma parts_even_length (a b : text) (ms : list (text * text)) :
  Nat.even (List.length (a :: b :: flat_map (fun mt => [fst mt; snd mt]) ms)) = true.
Proof.
  revert a b; induction ms as [|[m t] ms IH]; intros a b; [reflexivity|].
  exact (IH m t).
Qed.

Lemma parse_text_eq s :
  parse_text s =
  (r <- parse_loop style0 (([], fst (split_tokens s)) :: snd (split_tokens s)) ;;
   Ok (snd r)).
Proof.
  unfold parse_text, re_split.
  destruct (split_tokens s) as [t0 ms]. simpl fst; simpl snd.
  rewrite parts_even_length. simpl negb. cbv iota.
  now rewrite combine_evens_odds.
Qed.

Lemma parse_loop_app st xs ys :
  parse_loop st (xs ++ ys) =
  (r1 <- parse_loop st xs ;;
   r2 <- parse_loop (fst r1) ys ;;
   Ok (fst r2, snd r1 ++ snd r2)).
Proof.
  revert st; induction xs as [|[spec sub] xs IH]; intros st.
  - simpl. destruct (parse_loop st ys) as [[st' r]|e]; reflexivity.
  - simpl. destruct (apply_style_spec st spec) as [st'|e]; [|reflexivity].
    simpl. rewrite IH.
    destruct (parse_loop st' xs) as [[st1 r1]|e]; [|reflexivity]. simpl.
    destruct (parse_loop st1 ys) as [[st2 r2]|e]; [|reflexivity]. simpl.
    now rewrite app_assoc.
Qed.

(** ** The effect of each kind of style code *)

Lemma in_mirc_colors_iff n : in_mirc_colors n = true <-> n <= 15.
Proof.
  split.
  - intros H. do 16 (destruct n as [|n]; [lia|]). discriminate.
  - intros H. do 16 (destruct n as [|n]; [reflexivity|]). lia.
Qed.

Lemma color_of_range n : n <= 15 -> color_of n = Some n.
Proof. intros H. unfold color_of. now rewrite (proj2 (in_mirc_colors_iff n) H). Qed.

Lemma color_of_out n : 15 < n -> color_of n = None.
Proof.
  intros H. unfold color_of. destruct (in_mirc_colors n) eqn:E; [|reflexivity].
  apply in_mirc_colors_iff in E; lia.
Qed.

Lemma text_eqb_neq a b : a <> b -> text_eqb a b = false.
Proof. unfold text_eqb. destruct (list_eq_dec Nat.eq_dec a b); congruence. Qed.

Lemma apply_nil st : apply_style_spec st [] = Ok st.
Proof. reflexivity. Qed.

Lemma apply_STX st : apply_style_spec st [char_STX] = Ok st.
Proof. reflexivity. Qed.

Lemma apply_US st :
  apply_style_spec st [char_US] = Ok (mkStyle (fg st) (bg st) true).
Proof. reflexivity. Qed.

Lemma apply_SI st : apply_style_spec st [char_SI] = Ok style0.
Proof. reflexivity. Qed.

Lemma apply_fg st d :
  digits_ok d ->
  apply_style_spec st (char_ETX :: d) =
  Ok (mkStyle (color_of (py_int d)) (bg st) (underline st)).
Proof.
  intros Hd. destruct (digits_ok_head d Hd) as (a & d' & -> & Ha).
  destruct (digit_not_ctrl a Ha) as (_ & H2 & _ & H4 & H5).
  unfold apply_style_spec.
  rewrite !text_eqb_neq by congruence.
  simpl startswith. cbv iota.
  unfold color_fullmatch. simpl Nat.eqb. cbv iota.
  rewrite (digits12_full _ Hd). reflexivity.
Qed.

Lemma lstrip_comma_digits e : digits_ok e -> lstrip [char_comma] e = e.
Proof.
  intros He. destruct (digits_ok_head e He) as (a & e' & -> & Ha).
  destruct (digit_not_ctrl a Ha) as (H1 & _).
  simpl. apply Nat.eqb_neq in H1. now rewrite H1.
Qed.

Lemma apply_fg_bg st d e :
  digits_ok d -> digits_ok e ->
  apply_style_spec st (char_ETX :: d ++ char_comma :: e) =
  Ok (mkStyle (color_of (py_int d)) (color_of (py_int e)) (underline st)).
Proof.
  intros Hd He. destruct (digits_ok_head d Hd) as (a & d' & Hd' & Ha).
  destruct (digit_not_ctrl a Ha) as (_ & H2 & _ & H4 & H5).
  unfold apply_style_spec.
  rewrite !text_eqb_neq by (rewrite Hd'; simpl; congruence).
  simpl startswith. cbv iota.
  unfold color_fullmatch. simpl Nat.eqb. cbv iota.
  rewrite (digits12_app_nondigit d char_comma e Hd eq_refl).
  simpl Nat.eqb. cbv iota.
  rewrite (digits12_full _ He). cbv iota beta.
  change (lstrip [char_comma] (char_comma :: e)) with (lstrip [char_comma] e).
  rewrite (lstrip_comma_digits e He). simpl. reflexivity.
Qed.

Lemma apply_shape_ok st m :
  spec_shape m -> exists st', apply_style_spec st m = Ok st'.
Proof.
  intros []; eauto using apply_STX, apply_US, apply_SI, apply_fg, apply_fg_bg.
Qed.

Lemma parse_loop_ok st ps :
  Forall (fun mt => spec_shape (fst mt)) ps -> exists r, parse_loop st ps = Ok r.
Proof.
  intros H; revert st; induction H as [|[m t] ps Hm _ IH]; intros st.
  - now exists (st, []).
  - simpl in Hm. destruct (apply_shape_ok st m Hm) as [st' E].
    simpl. rewrite E. simpl. destruct (IH st') as [r Er]. rewrite Er. simpl. eauto.
Qed.

Lemma parse_loop_cons st spec sub ps :
  parse_loop st ((spec, sub) :: ps) =
  (st' <- apply_style_spec st spec ;;
   r <- parse_loop st' ps ;;
   Ok (fst r, yield_run sub st' ++ snd r)).
Proof. reflexivity. Qed.

Lemma parse_text_ok s : exists r, parse_text s = Ok r.
Proof.
  rewrite parse_text_eq, parse_loop_cons. simpl bind at 1.
  destruct (parse_loop_ok style0 _ (split_tokens_shapes s)) as [[st r] E].
  rewrite E. simpl. eauto.
Qed.

(** ** Texts without style codes *)

Lemma split_tokens_plain t : no_style_code t = true -> split_tokens t = (t, []).
Proof.
  induction t as [|c t IH]; intros H; [reflexivity|].
  change (no_style_code (c :: t)) with
    (match style_match (c :: t) with Some _ => false | None => no_style_code t end) in H.
  rewrite split_tokens_eq.
  destruct (style_match (c :: t)); [discriminate|].
  now rewrite (IH H).
Qed.

(** ** Composition of [parse_text] at a style code *)

Lemma parse_text_app p q :
  style_match q <> None ->
  exists rp rq,
    parse_text p = Ok rp /\
    parse_loop (final_style p) (snd (split_tokens q)) = Ok rq /\
    parse_text (p ++ q) = Ok (rp ++ snd rq).
Proof.
  intros Hq.
  rewrite !parse_text_eq. unfold final_style.
  rewrite (split_tokens_app p q (or_intror Hq)). simpl fst; simpl snd.
  rewrite app_comm_cons, parse_loop_app.
  rewrite !parse_loop_cons, apply_nil. cbn [bind].
  destruct (parse_loop_ok style0 (snd (split_tokens p)) (split_tokens_shapes p))
    as [[st rp] E].
  rewrite E. cbn [bind fst snd].
  destruct (parse_loop_ok st (snd (split_tokens q)) (split_tokens_shapes q)) as [[st2 rq] E2].
  rewrite E2. cbn [bind fst snd]. exists (yield_run (fst (split_tokens p)) style0 ++ rp), (st2, rq).
  auto.
Qed.

(** The runs that follow a style code [m], from the style [st] before it. *)
Lemma parse_loop_after_code st m q rest :
  style_match (m ++ q) = Some (m, q) ->
  snd (split_tokens (m ++ q)) = (m, fst (split_tokens q)) :: snd (split_tokens q) /\
  (forall st', apply_style_spec st m = Ok st' ->
   parse_loop st ((m, fst (split_tokens q)) :: snd (split_tokens q)) = rest ->
   rest = (r <- parse_loop st' (snd (split_tokens q)) ;;
           Ok (fst r, yield_run (fst (split_tokens q)) st' ++ snd r))).
Proof.
  intros Hm. split.
  - rewrite split_tokens_eq, Hm. destruct (split_tokens q); reflexivity.
  - intros st' Ea <-. rewrite parse_loop_cons, Ea. reflexivity.
Qed.

(** A property of the style kept by every code of a run list is seen by all
    the runs yielded from it. *)
Lemma parse_loop_invariant (P : style -> Prop) (Q : run -> Prop) st ps r :
  (forall st0 t, P st0 -> t <> [] -> Q (t, tags_of st0)) ->
  Forall (fun mt => forall st0 st1, P st0 -> apply_style_spec st0 (fst mt) = Ok st1 -> P st1) ps ->
  P st ->
  parse_loop st ps = Ok r ->
  Forall Q (snd r).
Proof.
  intros HQ Hps; revert st r; induction Hps as [|[m t] ps Hm _ IH]; intros st r Hst E.
  - simpl in E. inversion E; subst. constructor.
  - rewrite parse_loop_cons in E.
    destruct (apply_style_spec st m) as [st'|e] eqn:Ea; [|discriminate]. simpl in E.
    destruct (parse_loop st' ps) as [r'|e] eqn:Er; [|discriminate]. simpl in E.
    inversion E; subst. simpl.
    pose proof (Hm st st' Hst Ea) as Hst'.
    apply Forall_app; split; [|exact (IH st' r' Hst' Er)].
    destruct t as [|c t']; constructor; [apply HQ; [assumption|discriminate]|constructor].
Qed.

Lemma yield_run_Forall (Q : run -> Prop) t st :
  (t <> [] -> Q (t, tags_of st)) -> Forall Q (yield_run t st).
Proof.
  destruct t as [|c t']; intros H; constructor; [apply H; discriminate|constructor].
Qed.

(** ** Which codes touch which component *)

Lemma comma_neq_digit a : is_digit a = true -> (char_comma =? a) = false.
Proof.
  intros Ha. destruct (digit_not_ctrl a Ha) as (H & _).
  apply Nat.eqb_neq. congruence.
Qed.

Lemma digits_no_comma d : digits_ok d -> existsb (Nat.eqb char_comma) d = false.
Proof.
  intros [a Ha | a b Ha Hb]; cbn [existsb];
    rewrite ?(comma_neq_digit a Ha), ?(comma_neq_digit b Hb); reflexivity.
Qed.

Lemma keep_fg m st st' :
  spec_shape m -> sets_fg m = false -> apply_style_spec st m = Ok st' -> fg st' = fg st.
Proof.
  intros Hm Hs E; inversion Hm; subst.
  - rewrite apply_STX in E; congruence.
  - rewrite apply_US in E; inversion E; reflexivity.
  - discriminate.
  - discriminate.
  - discriminate.
Qed.

Lemma keep_bg m st st' :
  spec_shape m -> sets_bg m = false -> apply_style_spec st m = Ok st' -> bg st' = bg st.
Proof.
  intros Hm Hs E; inversion Hm; subst.
  - rewrite apply_STX in E; congruence.
  - rewrite apply_US in E; inversion E; reflexivity.
  - discriminate.
  - rewrite apply_fg in E by assumption. inversion E; reflexivity.
  - unfold sets_bg in Hs. simpl in Hs. rewrite existsb_app in Hs. simpl in Hs.
    rewrite orb_true_r in Hs. discriminate.
Qed.

Lemma keep_underline m st st' :
  spec_shape m -> clears_underline m = false -> underline st = true ->
  apply_style_spec st m = Ok st' -> underline st' = true.
Proof.
  intros Hm Hs Hu E; inversion Hm; subst.
  - rewrite apply_STX in E; congruence.
  - rewrite apply_US in E; inversion E; reflexivity.
  - discriminate.
  - rewrite apply_fg in E by assumption. inversion E; assumption.
  - rewrite apply_fg_bg in E by assumption. inversion E; assumption.
Qed.

Lemma final_style_nil : final_style [] = style0.
Proof. reflexivity. Qed.

Lemma parse_text_nil : parse_text [] = Ok [].
Proof. reflexivity. Qed.

(** What [parse_text] yields on [p ++ m ++ q] when the regex recognises the
    style code [m] right after [p]. *)
Lemma parse_text_after_code p m q :
  style_match (m ++ q) = Some (m, q) ->
  exists rp st' rq,
    parse_text p = Ok rp /\
    apply_style_spec (final_style p) m = Ok st' /\
    parse_loop st' (snd (split_tokens q)) = Ok rq /\
    parse_text (p ++ m ++ q) = Ok (rp ++ yield_run (fst (split_tokens q)) st' ++ snd rq).
Proof.
  intros Hm.
  destruct (parse_text_app p (m ++ q) ltac:(rewrite Hm; discriminate))
    as (rp & rq0 & Ep & Eq0 & E).
  destruct (parse_loop_after_code (final_style p) m q (Ok rq0) Hm) as [Hs Hl].
  destruct (style_match_shape _ _ _ Hm) as [_ Hshape].
  destruct (apply_shape_ok (final_style p) m Hshape) as [st' Ea].
  destruct (parse_loop_ok st' (snd (split_tokens q)) (split_tokens_shapes q)) as [rq Eq].
  rewrite Hs in Eq0. specialize (Hl st' Ea Eq0).
  rewrite Eq in Hl. simpl in Hl. inversion Hl; subst rq0.
  exists rp, st', rq. repeat split; auto.
Qed.

Lemma runs_after_code_invariant p m q (P : style -> Prop) (Q : run -> Prop) :
  style_match (m ++ q) = Some (m, q) ->
  (forall st', apply_style_spec (final_style p) m = Ok st' -> P st') ->
  (forall st0 t, P st0 -> t <> [] -> Q (t, tags_of st0)) ->
  Forall (fun c => forall st0 st1, spec_shape c -> P st0 ->
                   apply_style_spec st0 c = Ok st1 -> P st1) (style_codes q) ->
  exists rp rq,
    parse_text p = Ok rp /\ parse_text (p ++ m ++ q) = Ok (rp ++ rq) /\ Forall Q rq.
Proof.
  intros Hm HP HQ Hq.
  destruct (parse_text_after_code p m q Hm) as (rp & st' & rq & Ep & Ea & El & E).
  exists rp, (yield_run (fst (split_tokens q)) st' ++ snd rq). repeat split; auto.
  specialize (HP st' Ea).
  apply Forall_app; split.
  - apply yield_run_Forall. auto.
  - apply (parse_loop_invariant P Q st' (snd (split_tokens q)) rq HQ); auto.
    pose proof (split_tokens_shapes q) as Hsh.
    unfold style_codes in Hq. rewrite Forall_map in Hq.
    rewrite Forall_forall in *. intros mt Hin st0 st1 H0 H1.
    exact (Hq mt Hin st0 st1 (Hsh mt Hin) H0 H1).
Qed.

Lemma spec_shape_nonempty m : spec_shape m -> m <> [].
Proof. intros []; discriminate. Qed.

(** The code [m] of [m ++ q ++ r] is the code of [m ++ q] when [r] is empty
    or starts with a style code. *)
Lemma style_match_drop_tail m q r :
  style_match (m ++ q ++ r) = Some (m, q ++ r) ->
  (r = [] \/ style_match r <> None) ->
  style_match (m ++ q) = Some (m, q).
Proof.
  intros Hm [-> | Hr]; [now rewrite app_nil_r in Hm|].
  assert (Hne : m ++ q <> []).
  { destruct (style_match_shape _ _ _ Hm) as [_ Hs].
    destruct m; [now apply spec_shape_nonempty in Hs|discriminate]. }
  pose proof (style_match_app (m ++ q) r Hne (style_match_not_continue r Hr)) as E.
  rewrite <- app_assoc, Hm in E.
  destruct (style_match (m ++ q)) as [[m' q']|]; simpl in E; [|discriminate].
  inversion E as [[Em Eq]]. subst m'. apply app_inv_tail in Eq. now subst q'.
Qed.

(** The runs yielded between a style code [m] and the rest [r] of the input,
    where [r] is empty or starts with the next style code: they are the same
    whatever [r] is, and a property of the style set by [m] and kept by every
    code of [q] holds for all of them. *)
Lemma runs_between_codes p m q r (P : style -> Prop) (Q : run -> Prop) :
  style_match (m ++ q ++ r) = Some (m, q ++ r) ->
  (r = [] \/ style_match r <> None) ->
  (forall st', apply_style_spec (final_style p) m = Ok st' -> P st') ->
  (forall st0 t, P st0 -> t <> [] -> Q (t, tags_of st0)) ->
  Forall (fun c => forall st0 st1, spec_shape c -> P st0 ->
                   apply_style_spec st0 c = Ok st1 -> P st1) (style_codes q) ->
  exists rp rq rest,
    parse_text p = Ok rp /\
    parse_text (p ++ m ++ q) = Ok (rp ++ rq) /\
    parse_text (p ++ m ++ q ++ r) = Ok (rp ++ rq ++ rest) /\
    Forall Q rq.
Proof.
  intros Hm Hr HP HQ Hq.
  pose proof (style_match_drop_tail m q r Hm Hr) as Hm'.
  destruct (runs_after_code_invariant p m q P Q Hm' HP HQ Hq) as (rp & rq & Ep & E & HF).
  destruct Hr as [-> | Hr].
  - exists rp, rq, []. rewrite !app_nil_r. auto.
  - destruct (parse_text_app (p ++ m ++ q) r Hr) as (rp' & rr & E1 & _ & E2).
    rewrite E in E1. inversion E1; subst rp'.
    exists rp, rq, (snd rr). split; [exact Ep|]. split; [exact E|]. split; [|exact HF].
    rewrite <- !app_assoc in E2. exact E2.
Qed.

(** The style after \x03<d> or \x03<d>,<e>: its foreground is [d]'s colour. *)
Lemma apply_fg_part st d b :
  digits_ok d -> (b = [] \/ exists e, digits_ok e /\ b = char_comma :: e) ->
  forall st', apply_style_spec st (char_ETX :: d ++ b) = Ok st' ->
  fg st' = color_of (py_int d).
Proof.
  intros Hd [-> | (e & He & ->)] st' E.
  - rewrite app_nil_r, apply_fg in E by exact Hd. now inversion E.
  - rewrite apply_fg_bg in E by assumption. now inversion E.
Qed.

(** ** C1 *)

(** Claim C1: parsing "Hello \x034there\x0f!" yields the runs ("Hello ", []),
    ("there", ["foreground-4"]) and ("!", []), in that order. *)
Theorem parse_text_scenario :
  parse_text (cps "Hello " ++ [char_ETX] ++ cps "4there" ++ [char_SI] ++ cps "!")
  = Ok [(cps "Hello ", []); (cps "there", ["foreground-4"%string]); (cps "!", [])].
Proof. vm_compute. reflexivity. Qed.

(** ** C2 *)

(** Claim C2: for every colour code [n] in 0..15 written with one or two
    digits [d], parsing the sequence \x03<d> followed by a text [t] without
    style codes (which the regex does not absorb into the code) yields the
    single run [t] with exactly the tag foreground-<n>. *)
Theorem parse_text_color_in_range n d t :
  digits_ok d -> py_int d = n -> n <= 15 ->
  style_match (char_ETX :: d ++ t) = Some (char_ETX :: d, t) ->
  no_style_code t = true -> t <> [] ->
  parse_text (char_ETX :: d ++ t) = Ok [(t, ["foreground-" ++ show_nat n]%string)].
Proof.
  intros Hd Hn Hr Hm Ht Hne.
  destruct (parse_text_after_code [] (char_ETX :: d) t Hm) as (rp & st' & rq & Ep & Ea & El & E).
  rewrite parse_text_nil in Ep. inversion Ep; subst rp.
  rewrite final_style_nil, apply_fg in Ea by exact Hd. inversion Ea; subst st'.
  rewrite (split_tokens_plain t Ht) in El, E. simpl in El. inversion El; subst rq.
  simpl in E. rewrite E. subst n.
  destruct t as [|c t']; [congruence|].
  unfold yield_run, tags_of. simpl. rewrite color_of_range by exact Hr. reflexivity.
Qed.

(** ** C3 *)

(** Claim C3: a colour code [n] above 15 (a one- or two-digit index, so
    16..99) yields no foreground tag: the following run carries no tag. *)
Theorem parse_text_color_out_of_range n d t :
  digits_ok d -> py_int d = n -> 15 < n ->
  style_match (char_ETX :: d ++ t) = Some (char_ETX :: d, t) ->
  no_style_code t = true -> t <> [] ->
  parse_text (char_ETX :: d ++ t) = Ok [(t, [])].
Proof.
  intros Hd Hn Hr Hm Ht Hne.
  destruct (parse_text_after_code [] (char_ETX :: d) t Hm) as (rp & st' & rq & Ep & Ea & El & E).
  rewrite parse_text_nil in Ep. inversion Ep; subst rp.
  rewrite final_style_nil, apply_fg in Ea by exact Hd. inversion Ea; subst st'.
  rewrite (split_tokens_plain t Ht) in El, E. simpl in El. inversion El; subst rq.
  simpl in E. rewrite E. subst n.
  destruct t as [|c t']; [congruence|].
  unfold yield_run, tags_of. simpl. rewrite color_of_out by exact Hr. reflexivity.
Qed.

(** ** C4 *)

(** Claim C4: whatever precedes a \x0f, the text [t] after it, up to the next
    style code or the end of the input, is yielded as a run with no tag. *)
Theorem parse_text_reset_clears p t r :
  no_style_code t = true -> t <> [] ->
  (r = [] \/ style_match r <> None) ->
  exists rp rest,
    parse_text p = Ok rp /\
    parse_text (p ++ char_SI :: t ++ r) = Ok (rp ++ (t, []) :: rest).
Proof.
  intros Ht Hne Hr.
  destruct (parse_text_after_code p [char_SI] (t ++ r) eq_refl)
    as (rp & st' & rq & Ep & Ea & El & E).
  rewrite apply_SI in Ea. inversion Ea; subst st'.
  rewrite (split_tokens_app t r Hr), (split_tokens_plain t Ht) in E. simpl fst in E.
  exists rp, (snd rq). split; [exact Ep|].
  change ([char_SI] ++ t ++ r) with (char_SI :: t ++ r) in E.
  rewrite E. destruct t as [|c t']; [congruence|]. reflexivity.
Qed.

(** ** C5 *)

(** Claim C5, as stated: every input without style codes yields exactly one
    run, the whole input with no tag.  The empty input is a counterexample. *)
Lemma parse_text_plain_single_run_fails :
  ~ (forall s, no_style_code s = true -> parse_text s = Ok [(s, [])]).
Proof. intros H. specialize (H [] eq_refl). discriminate H. Qed.

(** Claim C5, amended: an input without style codes yields the whole input as
    one run with no tag when it is not empty, and no run when it is empty. *)
Theorem parse_text_plain s :
  no_style_code s = true ->
  parse_text s = Ok (match s with [] => [] | _ => [(s, [])] end).
Proof.
  intros Hs. rewrite parse_text_eq, (split_tokens_plain s Hs). simpl.
  destruct s; reflexivity.
Qed.

(** ** C6 *)

Lemma evens_parts (a b : text) (ms : list (text * text)) :
  evens (a :: b :: flat_map (fun mt => [fst mt; snd mt]) ms) = a :: map fst ms.
Proof.
  revert a b; induction ms as [|[m t] ms IH]; intros a b; [reflexivity|].
  simpl in *. now rewrite IH.
Qed.

Lemma shape_fullmatch m :
  spec_shape m -> startswith m [char_ETX] = true -> color_fullmatch m <> None.
Proof.
  intros Hm Hs; inversion Hm; subst; try discriminate Hs.
  - unfold color_fullmatch. simpl Nat.eqb. cbv iota.
    rewrite (digits12_full _ H). discriminate.
  - unfold color_fullmatch. simpl Nat.eqb. cbv iota.
    rewrite (digits12_app_nondigit d char_comma e H eq_refl). simpl Nat.eqb. cbv iota.
    rewrite (digits12_full _ H0). discriminate.
Qed.

Lemma shape_branch m :
  spec_shape m ->
  m = [char_STX] \/ m = [char_US] \/ startswith m [char_ETX] = true \/ m = [char_SI].
Proof. intros Hm; inversion Hm; subst; auto. Qed.

(** Claim C6: [parse_text] never raises.  The list [parts] has even length,
    every [style_spec] that starts with \x03 is accepted by the [fullmatch],
    every [style_spec] is one of the handled forms (so the [ValueError] branch
    is never taken), and the result is a list of runs for every input. *)
Theorem parse_text_total s :
  Nat.even (List.length ([] :: re_split s)) = true /\
  Forall (fun spec => startswith spec [char_ETX] = true -> color_fullmatch spec <> None)
    (evens ([] :: re_split s)) /\
  Forall (fun spec => spec = [] \/ spec = [char_STX] \/ spec = [char_US] \/
                      startswith spec [char_ETX] = true \/ spec = [char_SI])
    (evens ([] :: re_split s)) /\
  exists runs, parse_text s = Ok runs.
Proof.
  pose proof (split_tokens_shapes s) as Hsh.
  unfold re_split. destruct (split_tokens s) as [t0 ms]. simpl snd in Hsh.
  rewrite evens_parts.
  split; [apply parts_even_length|].
  split; [|split].
  - constructor; [discriminate|].
    rewrite Forall_map. eapply Forall_impl; [|exact Hsh].
    intros [m t] Hm. exact (shape_fullmatch m Hm).
  - constructor; [auto|].
    rewrite Forall_map. eapply Forall_impl; [|exact Hsh].
    intros [m t] Hm. simpl. right. exact (shape_branch m Hm).
  - apply parse_text_ok.
Qed.

(** ** C7 *)

Lemma tags_fg st n : fg st = Some n -> In ("foreground-" ++ show_nat n)%string (tags_of st).
Proof. intros H. unfold tags_of. rewrite H. simpl. auto. Qed.

Lemma tags_bg st n : bg st = Some n -> In ("background-" ++ show_nat n)%string (tags_of st).
Proof.
  intros H. unfold tags_of. rewrite H. apply in_or_app. right. simpl. auto.
Qed.

Lemma tags_underline st : underline st = true -> In "underline"%string (tags_of st).
Proof.
  intros H. unfold tags_of. rewrite H. apply in_or_app. right.
  apply in_or_app. right. simpl. auto.
Qed.

(** Claim C7: the scan carries each style component forward, run by run,
    without looking ahead.  The input is [p], a style code, a stretch [q],
    and a rest [r] that is empty or starts with the next style code (for
    instance the one that overwrites or clears the component).  The runs
    [rq] yielded for [q] are the same whether [r] follows or not, and:
    after \x1f each of them carries "underline" as long as no code of [q]
    is \x0f; after \x03<d> or \x03<d>,<e> with [d] in range each carries
    foreground-<d> as long as no code of [q] sets the foreground (a colour
    code or \x0f); after \x03<d>,<e> with [e] in range each carries
    background-<e> as long as no code of [q] sets the background (a colour
    code with a background part, or \x0f).  The runs of the prefix [p] are
    those of [parse_text p]. *)
Theorem parse_text_state_carried :
  (forall p q r,
    Forall (fun c => clears_underline c = false) (style_codes q) ->
    (r = [] \/ style_match r <> None) ->
    exists rp rq rest,
      parse_text p = Ok rp /\
      parse_text (p ++ [char_US] ++ q) = Ok (rp ++ rq) /\
      parse_text (p ++ [char_US] ++ q ++ r) = Ok (rp ++ rq ++ rest) /\
      Forall (fun run => In "underline"%string (snd run)) rq) /\
  (forall p d b q r,
    digits_ok d -> py_int d <= 15 ->
    (b = [] \/ exists e, digits_ok e /\ b = char_comma :: e) ->
    style_match ((char_ETX :: d ++ b) ++ q ++ r) = Some (char_ETX :: d ++ b, q ++ r) ->
    Forall (fun c => sets_fg c = false) (style_codes q) ->
    (r = [] \/ style_match r <> None) ->
    exists rp rq rest,
      parse_text p = Ok rp /\
      parse_text (p ++ (char_ETX :: d ++ b) ++ q) = Ok (rp ++ rq) /\
      parse_text (p ++ (char_ETX :: d ++ b) ++ q ++ r) = Ok (rp ++ rq ++ rest) /\
      Forall (fun run => In ("foreground-" ++ show_nat (py_int d))%string (snd run)) rq) /\
  (forall p d e q r,
    digits_ok d -> digits_ok e -> py_int e <= 15 ->
    style_match ((char_ETX :: d ++ char_comma :: e) ++ q ++ r) =
      Some (char_ETX :: d ++ char_comma :: e, q ++ r) ->
    Forall (fun c => sets_bg c = false) (style_codes q) ->
    (r = [] \/ style_match r <> None) ->
    exists rp rq rest,
      parse_text p = Ok rp /\
      parse_text (p ++ (char_ETX :: d ++ char_comma :: e) ++ q) = Ok (rp ++ rq) /\
      parse_text (p ++ (char_ETX :: d ++ char_comma :: e) ++ q ++ r) = Ok (rp ++ rq ++ rest) /\
      Forall (fun run => In ("background-" ++ show_nat (py_int e))%string (snd run)) rq).
Proof.
  split; [|split].
  - intros p q r Hq Hr.
    apply (runs_between_codes p [char_US] q r (fun st => underline st = true)).
    + reflexivity.
    + exact Hr.
    + intros st' E. rewrite apply_US in E. inversion E. reflexivity.
    + intros st0 t H _. exact (tags_underline st0 H).
    + eapply Forall_impl; [|exact Hq]. intros c Hc st0 st1 Hs H0 H1.
      exact (keep_underline c st0 st1 Hs Hc H0 H1).
  - intros p d b q r Hd Hn Hb Hm Hq Hr.
    apply (runs_between_codes p (char_ETX :: d ++ b) q r
             (fun st => fg st = Some (py_int d))).
    + exact Hm.
    + exact Hr.
    + intros st' E. rewrite (apply_fg_part _ d b Hd Hb st' E).
      now apply color_of_range.
    + intros st0 t H _. exact (tags_fg st0 _ H).
    + eapply Forall_impl; [|exact Hq]. intros c Hc st0 st1 Hs H0 H1.
      rewrite (keep_fg c st0 st1 Hs Hc H1). exact H0.
  - intros p d e q r Hd He Hn Hm Hq Hr.
    apply (runs_between_codes p (char_ETX :: d ++ char_comma :: e) q r
             (fun st => bg st = Some (py_int e))).
    + exact Hm.
    + exact Hr.
    + intros st' E. rewrite apply_fg_bg in E by assumption. inversion E.
      simpl. now apply color_of_range.
    + intros st0 t H _. exact (tags_bg st0 _ H).
    + eapply Forall_impl; [|exact Hq]. intros c Hc st0 st1 Hs H0 H1.
      rewrite (keep_bg c st0 st1 Hs Hc H1). exact H0.
Qed.

(** ** C10 *)

Lemma tags_no_fg st k :
  fg st = None -> ~ In ("foreground-" ++ show_nat k)%string (tags_of st).
Proof.
  intros H. unfold tags_of. rewrite H. simpl.
  destruct (bg st), (underline st); simpl; intuition discriminate.
Qed.

Lemma tags_no_bg st k :
  bg st = None -> ~ In ("background-" ++ show_nat k)%string (tags_of st).
Proof.
  intros H. unfold tags_of. rewrite H. simpl.
  destruct (fg st), (underline st); simpl; intuition discriminate.
Qed.

(** Claim C10: an out-of-range colour index overwrites the component it
    sets, whatever colour was active before (in [p]).  As for C7, the input
    is [p], the code, a stretch [q] and a rest [r] that is empty or starts
    with the next style code (for instance a later colour code or \x0f).
    After \x03<d> or \x03<d>,<e> with [d] above 15, no run yielded for [q]
    carries a foreground tag as long as no code of [q] sets the foreground;
    after \x03<d>,<e> with [e] above 15, none carries a background tag as
    long as no code of [q] sets the background. *)
Theorem parse_text_out_of_range_overwrites :
  (forall p d b q r,
    digits_ok d -> 15 < py_int d ->
    (b = [] \/ exists e, digits_ok e /\ b = char_comma :: e) ->
    style_match ((char_ETX :: d ++ b) ++ q ++ r) = Some (char_ETX :: d ++ b, q ++ r) ->
    Forall (fun c => sets_fg c = false) (style_codes q) ->
    (r = [] \/ style_match r <> None) ->
    exists rp rq rest,
      parse_text p = Ok rp /\
      parse_text (p ++ (char_ETX :: d ++ b) ++ q) = Ok (rp ++ rq) /\
      parse_text (p ++ (char_ETX :: d ++ b) ++ q ++ r) = Ok (rp ++ rq ++ rest) /\
      Forall (fun run => forall k, ~ In ("foreground-" ++ show_nat k)%string (snd run)) rq) /\
  (forall p d e q r,
    digits_ok d -> digits_ok e -> 15 < py_int e ->
    style_match ((char_ETX :: d ++ char_comma :: e) ++ q ++ r) =
      Some (char_ETX :: d ++ char_comma :: e, q ++ r) ->
    Forall (fun c => sets_bg c = false) (style_codes q) ->
    (r = [] \/ style_match r <> None) ->
    exists rp rq rest,
      parse_text p = Ok rp /\
      parse_text (p ++ (char_ETX :: d ++ char_comma :: e) ++ q) = Ok (rp ++ rq) /\
      parse_text (p ++ (char_ETX :: d ++ char_comma :: e) ++ q ++ r) = Ok (rp ++ rq ++ rest) /\
      Forall (fun run => forall k, ~ In ("background-" ++ show_nat k)%string (snd run)) rq).
Proof.
  split.
  - intros p d b q r Hd Hn Hb Hm Hq Hr.
    apply (runs_between_codes p (char_ETX :: d ++ b) q r (fun st => fg st = None)).
    + exact Hm.
    + exact Hr.
    + intros st' E. rewrite (apply_fg_part _ d b Hd Hb st' E).
      now apply color_of_out.
    + intros st0 t H _ k. exact (tags_no_fg st0 k H).
    + eapply Forall_impl; [|exact Hq]. intros c Hc st0 st1 Hs H0 H1.
      rewrite (keep_fg c st0 st1 Hs Hc H1). exact H0.
  - intros p d e q r Hd He Hn Hm Hq Hr.
    apply (runs_between_codes p (char_ETX :: d ++ char_comma :: e) q r (fun st => bg st = None)).
    + exact Hm.
    + exact Hr.
    + intros st' E. rewrite apply_fg_bg in E by assumption. inversion E.
      simpl. now apply color_of_out.
    + intros st0 t H _ k. exact (tags_no_bg st0 k H).
    + eapply Forall_impl; [|exact Hq]. intros c Hc st0 st1 Hs H0 H1.
      rewrite (keep_bg c st0 st1 Hs Hc H1). exact H0.
Qed.

(** ** C9 *)

Lemma remove_style_codes_fuel_indep n1 n2 s :
  List.length s < n1 -> List.length s < n2 ->
  remove_style_codes_fuel n1 s = remove_style_codes_fuel n2 s.
Proof.
  revert n2 s; induction n1 as [|n1 IH]; intros n2 s H1 H2; [lia|].
  destruct n2 as [|n2]; [lia|].
  simpl. destruct (style_match s) as [[m r]|] eqn:E.
  - pose proof (style_match_length _ _ _ E). apply IH; lia.
  - destruct s as [|c s']; [reflexivity|].
    simpl List.length in *. f_equal. apply IH; lia.
Qed.

Lemma remove_style_codes_eq s :
  remove_style_codes s =
  match style_match s with
  | Some (_, rest) => remove_style_codes rest
  | None => match s with [] => [] | c :: s' => c :: remove_style_codes s' end
  end.
Proof.
  unfold remove_style_codes at 1; simpl.
  destruct (style_match s) as [[m r]|] eqn:E.
  - pose proof (style_match_length _ _ _ E).
    apply remove_style_codes_fuel_indep; lia.
  - destruct s; reflexivity.
Qed.

Lemma split_tokens_texts s :
  fst (split_tokens s) ++ List.concat (map snd (snd (split_tokens s))) = remove_style_codes s.
Proof.
  remember (List.length s) as n eqn:Hn.
  revert s Hn; induction n as [n IH] using lt_wf_ind; intros s Hn.
  rewrite split_tokens_eq, remove_style_codes_eq.
  destruct (style_match s) as [[m r]|] eqn:E.
  - pose proof (style_match_length _ _ _ E).
    specialize (IH (List.length r) ltac:(subst; auto) r eq_refl).
    destruct (split_tokens r) as [t ms]. simpl in *. exact IH.
  - destruct s as [|c s']; [reflexivity|].
    specialize (IH (List.length s') ltac:(subst; simpl; auto) s' eq_refl).
    destruct (split_tokens s') as [t ms]. simpl in *. now rewrite IH.
Qed.

Lemma parse_loop_texts st ps r :
  parse_loop st ps = Ok r ->
  List.concat (map fst (snd r)) = List.concat (map snd ps) /\ Forall (fun x => fst x <> []) (snd r).
Proof.
  revert st r; induction ps as [|[m t] ps IH]; intros st r E.
  - simpl in E. inversion E; subst. simpl. auto.
  - rewrite parse_loop_cons in E.
    destruct (apply_style_spec st m) as [st'|e]; [|discriminate]. simpl in E.
    destruct (parse_loop st' ps) as [r'|e] eqn:Er; [|discriminate]. simpl in E.
    inversion E; subst. cbn [snd].
    destruct (IH st' r' Er) as [H1 H2].
    rewrite map_app, List.concat_app.
    unfold run, text in *. rewrite H1.
    destruct t as [|c t']; simpl; rewrite ?app_nil_r; split; auto.
    constructor; [discriminate|exact H2].
Qed.

(** Claim C9: the texts of the runs, concatenated, are the input with every
    style code removed, and no run has an empty text. *)
Theorem parse_text_texts s :
  exists runs,
    parse_text s = Ok runs /\
    List.concat (map fst runs) = remove_style_codes s /\
    Forall (fun r => fst r <> []) runs.
Proof.
  destruct (parse_text_ok s) as [runs E]. exists runs. split; [exact E|].
  rewrite parse_text_eq in E.
  destruct (parse_loop style0 (([], fst (split_tokens s)) :: snd (split_tokens s)))
    as [r|e] eqn:El; [|discriminate].
  simpl in E. inversion E; subst runs.
  destruct (parse_loop_texts _ _ _ El) as [H1 H2]. split; [|exact H2].
  rewrite H1. simpl. apply split_tokens_texts.
Qed.

Lemma existsb_eqb_In c chars : existsb (Nat.eqb c) chars = true <-> In c chars.
Proof.
  rewrite existsb_exists. split.
  - intros (x & Hx & E). apply Nat.eqb_eq in E. now subst.
  - intros H. exists c. split; [exact H | apply Nat.eqb_refl].
Qed.

Lemma lstrip_spec chars l :
  exists w, l = w ++ lstrip chars l /\ Forall (fun c => In c chars) w /\
            (forall c l', lstrip chars l = c :: l' -> ~ In c chars).
Proof.
  induction l as [|c l (w & E & Hw & Hh)].
  - exists []. simpl. split; [reflexivity|]. split; [constructor|]. discriminate.
  - simpl. destruct (existsb (Nat.eqb c) chars) eqn:Ec.
    + exists (c :: w). split; [simpl; now f_equal|]. split; [|exact Hh].
      constructor; [now apply existsb_eqb_In|exact Hw].
    + exists []. split; [reflexivity|]. split; [constructor|].
      intros c' l' H. inversion H; subst. intros Hin.
      apply existsb_eqb_In in Hin. congruence.
Qed.

Lemma rstrip_spec chars s : is_rstrip chars s (rstrip chars s).
Proof.
  unfold is_rstrip, rstrip.
  destruct (lstrip_spec chars (rev s)) as (w & E & Hw & Hh).
  exists (rev w). split; [|split].
  - rewrite <- rev_app_distr, <- E. now rewrite rev_involutive.
  - now apply Forall_rev.
  - intros u' c Hu. apply (Hh c (rev u')).
    rewrite <- (rev_involutive (lstrip chars (rev s))), Hu.
    rewrite rev_app_distr. reflexivity.
Qed.

Lemma take_until_prefix sep s : exists w, s = take_until sep s ++ w.
Proof.
  induction s as [|c s (w & E)]; [exists []; reflexivity|].
  simpl. destruct (c =? sep); [exists (c :: s); reflexivity|].
  exists w. simpl. now f_equal.
Qed.

Lemma is_rstrip_prefix chars s u : is_rstrip chars s u -> exists w, s = u ++ w.
Proof. intros (w & E & _). eauto. Qed.

Lemma tk_get_prefix content a u w :
  skipn a content = u ++ w -> tk_get content a (a + List.length u) = u.
Proof.
  intros E. unfold tk_get. rewrite E.
  replace (a + List.length u - a) with (List.length u) by lia.
  rewrite firstn_app, Nat.sub_diag, firstn_all. simpl. apply app_nil_r.
Qed.

(** Claim C8: for every range tagged "url", with [cand] the text from the
    match to the first space, quote or backtick on its line: stripping
    . , ? ! from the end of [cand] gives [x]; [y] is [x] with trailing )
    stripped when [x] contains no (, and [x] otherwise; stripping . , ? !
    from the end of [y] gives [u]; the tagged range is exactly the text [u]. *)
Theorem find_and_tag_urls_strip tk_search fuel content start stop :
  Forall (fun ab =>
    let cand := url_candidate (tk_get_to_lineend content (fst ab)) in
    exists x y u,
      is_rstrip url_punct cand x /\
      (if existsb (Nat.eqb char_lparen) x then y = x else is_rstrip [char_rparen] x y) /\
      is_rstrip url_punct y u /\
      snd ab = fst ab + List.length u /\
      tk_get content (fst ab) (snd ab) = u)
    (find_and_tag_urls tk_search fuel content start stop).
Proof.
  revert start; induction fuel as [|fuel IH]; intros start; [constructor|].
  cbn [find_and_tag_urls].
  destruct (tk_search content start stop) as [a|]; [|constructor].
  constructor; [|apply IH]. cbn [fst snd]. cbv zeta.
  set (line := tk_get_to_lineend content a).
  set (cand := url_candidate line).
  set (x := rstrip url_punct cand).
  set (y := if negb (existsb (Nat.eqb char_lparen) x) then rstrip [char_rparen] x else x).
  exists x, y, (rstrip url_punct y).
  split; [apply rstrip_spec|]. split.
  { unfold y. destruct (existsb (Nat.eqb char_lparen) x) eqn:Hx; cbn [negb];
      [reflexivity | apply rstrip_spec]. }
  split; [apply rstrip_spec|]. split; [reflexivity|].
  (* the url is a prefix of the text from the match on *)
  destruct (is_rstrip_prefix _ _ _ (rstrip_spec url_punct y)) as (w1 & E1).
  assert (Ey : exists w, y = rstrip url_punct y ++ w) by eauto.
  assert (Ex : exists w, x = y ++ w).
  { unfold y. destruct (existsb (Nat.eqb char_lparen) x); cbn [negb].
    - exists []. now rewrite app_nil_r.
    - exact (is_rstrip_prefix _ _ _ (rstrip_spec _ x)). }
  destruct (is_rstrip_prefix _ _ _ (rstrip_spec url_punct cand)) as (w3 & E3).
  assert (Ec : exists w, line = cand ++ w).
  { unfold cand, url_candidate.
    destruct (take_until_prefix char_space line) as (v1 & F1).
    destruct (take_until_prefix 39 (take_until char_space line)) as (v2 & F2).
    destruct (take_until_prefix 34 (take_until 39 (take_until char_space line))) as (v3 & F3).
    destruct (take_until_prefix 96 (take_until 34 (take_until 39 (take_until char_space line))))
      as (v4 & F4).
    eexists. rewrite F1 at 1. rewrite F2 at 1. rewrite F3 at 1. rewrite F4 at 1.
    rewrite <- !app_assoc. reflexivity. }
  destruct (take_until_prefix char_newline (skipn a content)) as (w5 & E5).
  destruct Ex as (w2 & E2). destruct Ec as (w4 & E4).
  replace (strip_url cand) with (rstrip url_punct y) by reflexivity.
  apply (tk_get_prefix content a _ (w1 ++ w2 ++ w3 ++ w4 ++ w5)).
  assert (E5' : skipn a content = line ++ w5) by exact E5.
  assert (E3' : cand = x ++ w3) by exact E3.
  rewrite E5', E4, E3', E2. rewrite E1 at 1. now rewrite <- !app_assoc.
Qed.

(** ** Witnesses at concrete inputs *)

(** \x0312 followed by "there". *)
Lemma parse_text_color_in_range_witness :
  parse_text (char_ETX :: [49; 50] ++ cps "there")
  = Ok [(cps "there", ["foreground-" ++ show_nat 12]%string)].
Proof.
  apply (parse_text_color_in_range 12 [49; 50] (cps "there")).
  - constructor; reflexivity.
  - reflexivity.
  - lia.
  - vm_compute. reflexivity.
  - vm_compute. reflexivity.
  - discriminate.
Defined.

(** \x0399 followed by "there". *)
Lemma parse_text_color_out_of_range_witness :
  parse_text (char_ETX :: [57; 57] ++ cps "there") = Ok [(cps "there", [])].
Proof.
  apply (parse_text_color_out_of_range 99 [57; 57] (cps "there")).
  - constructor; reflexivity.
  - reflexivity.
  - lia.
  - vm_compute. reflexivity.
  - vm_compute. reflexivity.
  - discriminate.
Defined.

(** "\x034,5\x1fa" then \x0f, "b" and "\x02c". *)
Lemma parse_text_reset_clears_witness :
  exists rp rest,
    parse_text ([char_ETX; 52; char_comma; 53; char_US] ++ cps "a") = Ok rp /\
    parse_text (([char_ETX; 52; char_comma; 53; char_US] ++ cps "a")
                ++ char_SI :: cps "b" ++ char_STX :: cps "c")
    = Ok (rp ++ (cps "b", []) :: rest).
Proof.
  apply (parse_text_reset_clears ([char_ETX; 52; char_comma; 53; char_US] ++ cps "a")
           (cps "b") (char_STX :: cps "c")).
  - vm_compute. reflexivity.
  - discriminate.
  - right. discriminate.
Defined.

(** "a\x03 b": a lone \x03 is not a style code. *)
Lemma parse_text_plain_witness :
  parse_text (cps "a" ++ char_ETX :: cps " b") = Ok [(cps "a" ++ char_ETX :: cps " b", [])].
Proof.
  apply (parse_text_plain (cps "a" ++ char_ETX :: cps " b")).
  vm_compute. reflexivity.
Defined.

(** "\x1fa\x034b" up to the \x0f of "\x0fc"; "\x034,1a\x1f\x02b" up to
    the colour code of "\x037c"; "\x031,2a\x037b" up to the \x0f of
    "\x0fc". *)
Lemma parse_text_state_carried_witness :
  (exists rp rq rest,
    parse_text (cps "x") = Ok rp /\
    parse_text (cps "x" ++ [char_US] ++ cps "a" ++ [char_ETX; 52] ++ cps "b") = Ok (rp ++ rq) /\
    parse_text (cps "x" ++ [char_US] ++ (cps "a" ++ [char_ETX; 52] ++ cps "b") ++
                char_SI :: cps "c") = Ok (rp ++ rq ++ rest) /\
    Forall (fun run => In "underline"%string (snd run)) rq) /\
  (exists rp rq rest,
    parse_text (cps "x") = Ok rp /\
    parse_text (cps "x" ++ (char_ETX :: [52] ++ [char_comma; 49]) ++
                cps "a" ++ [char_US; char_STX] ++ cps "b") = Ok (rp ++ rq) /\
    parse_text (cps "x" ++ (char_ETX :: [52] ++ [char_comma; 49]) ++
                (cps "a" ++ [char_US; char_STX] ++ cps "b") ++ [char_ETX; 55] ++ cps "c")
    = Ok (rp ++ rq ++ rest) /\
    Forall (fun run => In ("foreground-" ++ show_nat (py_int [52]))%string (snd run)) rq) /\
  (exists rp rq rest,
    parse_text (cps "x") = Ok rp /\
    parse_text (cps "x" ++ (char_ETX :: [49] ++ char_comma :: [50]) ++
                cps "a" ++ [char_ETX; 55] ++ cps "b") = Ok (rp ++ rq) /\
    parse_text (cps "x" ++ (char_ETX :: [49] ++ char_comma :: [50]) ++
                (cps "a" ++ [char_ETX; 55] ++ cps "b") ++ char_SI :: cps "c")
    = Ok (rp ++ rq ++ rest) /\
    Forall (fun run => In ("background-" ++ show_nat (py_int [50]))%string (snd run)) rq).
Proof.
  destruct parse_text_state_carried as (H1 & H2 & H3).
  split; [|split].
  - apply (H1 (cps "x") (cps "a" ++ [char_ETX; 52] ++ cps "b") (char_SI :: cps "c")).
    + vm_compute. repeat constructor.
    + right. discriminate.
  - apply (H2 (cps "x") [52] [char_comma; 49] (cps "a" ++ [char_US; char_STX] ++ cps "b")
             ([char_ETX; 55] ++ cps "c")).
    + constructor; reflexivity.
    + vm_compute. lia.
    + right. exists [49]. split; [constructor; reflexivity | reflexivity].
    + vm_compute. reflexivity.
    + vm_compute. repeat constructor.
    + right. discriminate.
  - apply (H3 (cps "x") [49] [50] (cps "a" ++ [char_ETX; 55] ++ cps "b") (char_SI :: cps "c")).
    + constructor; reflexivity.
    + constructor; reflexivity.
    + vm_compute. lia.
    + vm_compute. reflexivity.
    + vm_compute. repeat constructor.
    + right. discriminate.
Defined.

(** "\x034a" then \x0399 and "b" up to "\x035c"; "\x031,4a" then \x031,99
    and "b" up to "\x0fc". *)
Lemma parse_text_out_of_range_overwrites_witness :
  (exists rp rq rest,
    parse_text ([char_ETX; 52] ++ cps "a") = Ok rp /\
    parse_text (([char_ETX; 52] ++ cps "a") ++ (char_ETX :: [57; 57] ++ []) ++ cps "b")
    = Ok (rp ++ rq) /\
    parse_text (([char_ETX; 52] ++ cps "a") ++ (char_ETX :: [57; 57] ++ []) ++ cps "b" ++
                [char_ETX; 53] ++ cps "c") = Ok (rp ++ rq ++ rest) /\
    Forall (fun run => forall k, ~ In ("foreground-" ++ show_nat k)%string (snd run)) rq) /\
  (exists rp rq rest,
    parse_text ([char_ETX; 49; char_comma; 52] ++ cps "a") = Ok rp /\
    parse_text (([char_ETX; 49; char_comma; 52] ++ cps "a") ++
                (char_ETX :: [49] ++ char_comma :: [57; 57]) ++ cps "b") = Ok (rp ++ rq) /\
    parse_text (([char_ETX; 49; char_comma; 52] ++ cps "a") ++
                (char_ETX :: [49] ++ char_comma :: [57; 57]) ++ cps "b" ++ char_SI :: cps "c")
    = Ok (rp ++ rq ++ rest) /\
    Forall (fun run => forall k, ~ In ("background-" ++ show_nat k)%string (snd run)) rq).
Proof.
  destruct parse_text_out_of_range_overwrites as (H1 & H2).
  split.
  - apply (H1 ([char_ETX; 52] ++ cps "a") [57; 57] [] (cps "b") ([char_ETX; 53] ++ cps "c")).
    + constructor; reflexivity.
    + vm_compute. lia.
    + left. reflexivity.
    + vm_compute. reflexivity.
    + vm_compute. constructor.
    + right. discriminate.
  - apply (H2 ([char_ETX; 49; char_comma; 52] ++ cps "a") [49] [57; 57] (cps "b")
             (char_SI :: cps "c")).
    + constructor; reflexivity.
    + constructor; reflexivity.
    + vm_compute. lia.
    + vm_compute. reflexivity.
    + vm_compute. constructor.
    + right. discriminate.
Defined.

(** ** Further properties of [parse_text] *)

Lemma color_of_bounded n : color_of n = None \/ exists k, k <= 15 /\ color_of n = Some k.
Proof.
  destruct (Nat.le_gt_cases n 15) as [H|H].
  - right. exists n. split; [exact H|]. now apply color_of_range.
  - left. now apply color_of_out.
Qed.

Lemma apply_style_spec_bounded st m st' :
  style_bounded st -> apply_style_spec st m = Ok st' -> style_bounded st'.
Proof.
  intros [Hf Hb] E. unfold apply_style_spec in E.
  destruct (text_eqb m []); [inversion E; subst; split; assumption|].
  destruct (text_eqb m [char_STX]); [inversion E; subst; split; assumption|].
  destruct (text_eqb m [char_US]); [inversion E; subst; split; assumption|].
  destruct (startswith m [char_ETX]).
  - destruct (color_fullmatch m) as [[fgs bgs]|]; [|discriminate].
    inversion E; subst. split; simpl.
    + exact (color_of_bounded (py_int fgs)).
    + destruct bgs as [b|]; [|exact Hb].
      exact (color_of_bounded (py_int (lstrip [char_comma] b))).
  - destruct (text_eqb m [char_SI]); [|discriminate].
    inversion E; subst. split; left; reflexivity.
Qed.

Lemma parse_text_tags_shape_aux s :
  exists runs, parse_text s = Ok runs /\
    Forall (fun r => exists f b u, snd r = f ++ b ++ u /\
                       palette_tag "foreground-" f /\ palette_tag "background-" b /\
                       (u = [] \/ u = ["underline"%string])) runs.
Proof.
  destruct (parse_text_ok s) as [runs E]. exists runs. split; [exact E|].
  rewrite parse_text_eq in E.
  destruct (parse_loop style0 (([], fst (split_tokens s)) :: snd (split_tokens s)))
    as [r|e] eqn:El; [|discriminate].
  simpl in E. inversion E; subst runs.
  refine (parse_loop_invariant style_bounded _ style0 _ r _ _ _ El).
  - intros st t [Hf Hb] _.
    exists (match fg st with Some n => ["foreground-" ++ show_nat n]%string | None => [] end),
           (match bg st with Some n => ["background-" ++ show_nat n]%string | None => [] end),
           (if underline st then ["underline"%string] else []).
    split; [reflexivity|]. split; [|split].
    + destruct Hf as [-> | (n & Hn & ->)]; [now left | right; eauto].
    + destruct Hb as [-> | (n & Hn & ->)]; [now left | right; eauto].
    + destruct (underline st); auto.
  - apply Forall_forall. intros mt _ st0 st1 H0 H1.
    exact (apply_style_spec_bounded st0 (fst mt) st1 H0 H1).
  - split; left; reflexivity.
Qed.

(** Every run's tags are, in this order: at most one foreground-<n>, at most
    one background-<m>, and at most "underline", with [n] and [m] palette
    indices (0..15). *)
Theorem parse_text_tags_shape s :
  exists runs, parse_text s = Ok runs /\
    Forall (fun r => exists f b u, snd r = f ++ b ++ u /\
                       palette_tag "foreground-" f /\ palette_tag "background-" b /\
                       (u = [] \/ u = ["underline"%string])) runs.
Proof. exact (parse_text_tags_shape_aux s). Qed.

(** Splitting the input just before a style code splits the output: the runs
    of [p ++ q] start with the runs of [p]. *)
Theorem parse_text_prefix_runs p q :
  style_match q <> None ->
  exists rp rq, parse_text p = Ok rp /\ parse_text (p ++ q) = Ok (rp ++ rq).
Proof.
  intros Hq. destruct (parse_text_app p q Hq) as (rp & rq & Ep & _ & E).
  exists rp, (snd rq). auto.
Qed.

(** Bold is not supported: a \x02 that is followed by a style code or by the
    end of the input changes nothing in the output. *)
Theorem parse_text_bold_ignored p q :
  (q = [] \/ style_match q <> None) ->
  parse_text (p ++ char_STX :: q) = parse_text (p ++ q).
Proof.
  intros Hq.
  assert (Hu : fst (split_tokens q) = []).
  { destruct Hq as [-> | Hq]; [reflexivity | exact (split_tokens_at_match q Hq)]. }
  assert (H2 : style_match (char_STX :: q) <> None) by (simpl; discriminate).
  rewrite !parse_text_eq.
  rewrite (split_tokens_app p (char_STX :: q) (or_intror H2)).
  rewrite (split_tokens_app p q Hq).
  assert (Hs : snd (split_tokens (char_STX :: q)) = ([char_STX], []) :: snd (split_tokens q)).
  { rewrite split_tokens_eq. simpl style_match. cbv iota.
    rewrite (surjective_pairing (split_tokens q)), Hu. reflexivity. }
  rewrite Hs. cbn [fst snd].
  rewrite !app_comm_cons, !parse_loop_app.
  match goal with |- context [parse_loop style0 ?l] =>
    destruct (parse_loop style0 l) as [[st r]|e]; [|reflexivity] end.
  cbn [bind fst snd].
  rewrite parse_loop_cons, apply_STX. cbn [bind].
  destruct (parse_loop st (snd (split_tokens q))) as [[st2 r2]|e]; reflexivity.
Qed.

(** ** Further properties of [find_and_tag_urls] and [_on_link_clicked] *)

Lemma take_until_In sep s c : In c (take_until sep s) -> c <> sep /\ In c s.
Proof.
  induction s as [|x s IH]; simpl; [tauto|].
  destruct (Nat.eqb_spec x sep) as [Ex|Ex]; simpl; [tauto|].
  intros [<- | H]; [auto|]. destruct (IH H); auto.
Qed.

Lemma strip_url_prefix u : exists w, u = strip_url u ++ w.
Proof.
  unfold strip_url.
  set (x := rstrip url_punct u).
  set (y := if negb (existsb (Nat.eqb char_lparen) x) then rstrip [char_rparen] x else x).
  destruct (is_rstrip_prefix _ _ _ (rstrip_spec url_punct u)) as (w1 & E1).
  destruct (is_rstrip_prefix _ _ _ (rstrip_spec url_punct y)) as (w3 & E3).
  assert (Ex : exists w, x = y ++ w).
  { unfold y. destruct (existsb (Nat.eqb char_lparen) x); cbn [negb].
    - exists []. now rewrite app_nil_r.
    - exact (is_rstrip_prefix _ _ _ (rstrip_spec _ x)). }
  destruct Ex as (w2 & E2).
  exists (w3 ++ w2 ++ w1).
  change (u = rstrip url_punct y ++ w3 ++ w2 ++ w1).
  rewrite E1 at 1. fold x. rewrite E2 at 1. rewrite E3 at 1.
  now rewrite <- !app_assoc.
Qed.

Lemma url_candidate_In line c :
  In c (url_candidate line) ->
  c <> char_space /\ c <> 39 /\ c <> 34 /\ c <> 96 /\ In c line.
Proof.
  unfold url_candidate. intros H.
  apply take_until_In in H as [H4 H].
  apply take_until_In in H as [H3 H].
  apply take_until_In in H as [H2 H].
  apply take_until_In in H as [H1 H].
  auto.
Qed.

Lemma find_and_tag_urls_text tk_search fuel content start stop :
  Forall (fun ab =>
    let u := strip_url (url_candidate (tk_get_to_lineend content (fst ab))) in
    snd ab = fst ab + List.length u /\ tk_get content (fst ab) (snd ab) = u)
    (find_and_tag_urls tk_search fuel content start stop).
Proof.
  revert start; induction fuel as [|fuel IH]; intros start; [constructor|].
  cbn [find_and_tag_urls].
  destruct (tk_search content start stop) as [a|]; [|constructor].
  constructor; [|apply IH]. cbn [fst snd]. cbv zeta. split; [reflexivity|].
  set (line := tk_get_to_lineend content a).
  set (cand := url_candidate line).
  destruct (strip_url_prefix cand) as (w1 & E1).
  assert (Ec : exists w, line = cand ++ w).
  { unfold cand, url_candidate.
    destruct (take_until_prefix char_space line) as (v1 & F1).
    destruct (take_until_prefix 39 (take_until char_space line)) as (v2 & F2).
    destruct (take_until_prefix 34 (take_until 39 (take_until char_space line))) as (v3 & F3).
    destruct (take_until_prefix 96 (take_until 34 (take_until 39 (take_until char_space line))))
      as (v4 & F4).
    eexists. rewrite F1 at 1. rewrite F2 at 1. rewrite F3 at 1. rewrite F4 at 1.
    rewrite <- !app_assoc. reflexivity. }
  destruct Ec as (w2 & E2).
  destruct (take_until_prefix char_newline (skipn a content)) as (w3 & E3).
  apply (tk_get_prefix content a _ (w1 ++ w2 ++ w3)).
  assert (E3' : skipn a content = line ++ w3) by exact E3.
  rewrite E3', E2. rewrite E1 at 1. now rewrite <- !app_assoc.
Qed.

(** The text of every range tagged "url" holds no space, no ', no double
    quote, no backtick and no newline. *)
Theorem find_and_tag_urls_no_separator tk_search fuel content start stop :
  Forall (fun ab => forall c, In c (tk_get content (fst ab) (snd ab)) ->
            ~ In c [char_space; 39; 34; 96; char_newline])
    (find_and_tag_urls tk_search fuel content start stop).
Proof.
  eapply Forall_impl; [|apply find_and_tag_urls_text].
  intros [a b]; cbn [fst snd]. intros [_ ->] c Hc.
  destruct (strip_url_prefix (url_candidate (tk_get_to_lineend content a))) as (w & E).
  assert (Hc' : In c (url_candidate (tk_get_to_lineend content a)))
    by (rewrite E; apply in_or_app; now left).
  apply url_candidate_In in Hc' as (H1 & H2 & H3 & H4 & H5).
  unfold tk_get_to_lineend in H5. apply take_until_In in H5 as [H6 _].
  simpl. intuition.
Qed.

Section ForwardSearch.

Variable tk_search : text -> nat -> nat -> option nat.

(** Tk's search runs forward from its start index and does not wrap around
    when a stop index is given. *)
Hypothesis search_forward :
  forall content from stop i, tk_search content from stop = Some i -> from <= i.

Lemma ranges_from_weaken lo lo' rs : lo' <= lo -> ranges_from lo rs -> ranges_from lo' rs.
Proof. destruct rs as [|[a b] rs]; simpl; [auto | intros; intuition lia]. Qed.

(** The ranges tagged "url" follow each other in the text, each after
    [start], with at least one untagged character between two of them. *)
Lemma find_and_tag_urls_ordered_aux fuel content start stop :
  ranges_from start (find_and_tag_urls tk_search fuel content start stop).
Proof.
  revert start; induction fuel as [|fuel IH]; intros start; [exact I|].
  cbn [find_and_tag_urls].
  destruct (tk_search content start stop) as [a|] eqn:Ea; [|exact I].
  apply search_forward in Ea. cbv zeta. simpl ranges_from.
  split; [exact Ea|]. split; [lia|].
  rewrite <- Nat.add_1_r. apply IH.
Qed.

End ForwardSearch.

Theorem find_and_tag_urls_ordered tk_search
    (search_forward : forall content from stop i,
        tk_search content from stop = Some i -> from <= i)
    fuel content start stop :
  ranges_from start (find_and_tag_urls tk_search fuel content start stop).
Proof. exact (find_and_tag_urls_ordered_aux tk_search search_forward fuel content start stop). Qed.

Lemma fold_case_big c : 90 < c -> fold_case c = c.
Proof.
  intros H. unfold fold_case.
  rewrite (proj2 (Nat.leb_gt c 90) H), andb_false_r. reflexivity.
Qed.

Lemma url_safe_fold c : url_safe (fold_case c) = url_safe c.
Proof.
  destruct (Nat.le_gt_cases c 90) as [H|H]; [|now rewrite fold_case_big].
  assert (T : forallb (fun x => Bool.eqb (url_safe (fold_case x)) (url_safe x)) (seq 0 91) = true)
    by (vm_compute; reflexivity).
  rewrite forallb_forall in T.
  apply Bool.eqb_prop, T, in_seq. lia.
Qed.

Lemma url_class_bound c : url_class c = true -> c <= 122.
Proof.
  intros H. destruct (Nat.le_gt_cases c 122) as [Hc|Hc]; [exact Hc|exfalso].
  unfold url_class, is_digit in H. rewrite fold_case_big in H by lia.
  rewrite (proj2 (Nat.leb_gt c 122) Hc), (proj2 (Nat.leb_gt c 57) ltac:(lia)),
    (proj2 (Nat.eqb_neq c 58) ltac:(lia)), !andb_false_r in H.
  discriminate H.
Qed.

Lemma existsb_eqb_false c l : existsb (Nat.eqb c) l = false -> ~ In c l.
Proof.
  intros H Hin. assert (E : existsb (Nat.eqb c) l = true).
  { apply existsb_exists. exists c. split; [exact Hin | apply Nat.eqb_refl]. }
  congruence.
Qed.

(** The last character of a match is kept by [url_candidate] and by the
    [rstrip] calls. *)
Lemma url_class_ok c :
  url_class c = true -> url_safe c = true /\ ~ In c url_punct /\ c <> char_rparen.
Proof.
  intros H. pose proof (url_class_bound c H) as Hb.
  assert (T : forallb (fun x => implb (url_class x)
                 (url_safe x && negb (existsb (Nat.eqb x) url_punct) && negb (x =? char_rparen)))
                (seq 0 123) = true) by (vm_compute; reflexivity).
  rewrite forallb_forall in T. specialize (T c (proj2 (in_seq 123 0 c) ltac:(lia))).
  rewrite H in T. simpl in T.
  apply andb_prop in T as [T Hr]. apply andb_prop in T as [Hs Hp].
  apply negb_true_iff in Hp, Hr. apply Nat.eqb_neq in Hr.
  split; [exact Hs|]. split; [exact (existsb_eqb_false c url_punct Hp) | exact Hr].
Qed.

Lemma url_safe_spec c :
  url_safe c = true ->
  c <> char_space /\ c <> 39 /\ c <> 34 /\ c <> 96 /\ c <> char_newline.
Proof.
  intros H. repeat split; intros ->; vm_compute in H; discriminate H.
Qed.

Lemma ci_prefix_split pat s :
  ci_prefix pat s = true ->
  exists u rest, s = u ++ rest /\ List.length u = List.length pat /\
                 Forall2 (fun c p => fold_case c = p) u pat.
Proof.
  revert s; induction pat as [|p pat IH]; intros s H.
  - exists [], s. auto.
  - destruct s as [|c s]; [discriminate|].
    simpl in H. apply andb_prop in H as [Hc H]. apply Nat.eqb_eq in Hc.
    destruct (IH s H) as (u & rest & -> & Hl & HF).
    exists (c :: u), rest. simpl. auto.
Qed.

Lemma ci_prefix_safe u pat :
  Forall2 (fun c p => fold_case c = p) u pat ->
  forallb url_safe pat = true -> forallb url_safe u = true.
Proof.
  induction 1 as [|c p u pat Hcp _ IH]; [reflexivity|].
  simpl. intros H. apply andb_prop in H as [Hp H].
  rewrite <- url_safe_fold, Hcp, Hp. simpl. exact (IH H).
Qed.

Lemma url_match_with_shape pre s m :
  forallb url_safe pre = true -> url_match_with pre s = Some m ->
  exists u c rest, s = u ++ c :: rest /\ m = u ++ [c] /\
    List.length u = List.length pre /\ forallb url_safe u = true /\ url_class c = true.
Proof.
  intros Hpre. unfold url_match_with.
  destruct (ci_prefix pre s) eqn:E1; [|discriminate].
  destruct (url_class (nth (List.length pre) s 0)) eqn:E2; [|discriminate].
  intros H. inversion H; subst m. clear H.
  destruct (ci_prefix_split pre s E1) as (u & rest & -> & Hl & HF).
  rewrite <- Hl, app_nth2, Nat.sub_diag in E2 by lia.
  destruct rest as [|c rest]; [discriminate E2|].
  exists u, c, rest. split; [reflexivity|]. split; [|split; [exact Hl|]].
  - rewrite <- Hl. change (firstn (S (List.length u)) (u ++ c :: rest) = u ++ [c]).
    replace (S (List.length u)) with (List.length u + 1) by lia.
    rewrite firstn_app, firstn_all2 by lia.
    replace (List.length u + 1 - List.length u) with 1 by lia. reflexivity.
  - split; [exact (ci_prefix_safe u pre HF Hpre) | exact E2].
Qed.

Lemma url_match_shape s m :
  url_match s = Some m ->
  exists u c rest, s = u ++ c :: rest /\ m = u ++ [c] /\
    7 <= List.length u /\ forallb url_safe u = true /\ url_class c = true.
Proof.
  unfold url_match.
  destruct (url_match_with (cps "https://") s) as [m'|] eqn:E.
  - intros H. inversion H; subst m'. clear H.
    destruct (url_match_with_shape (cps "https://") s m eq_refl E) as (u & c & rest & Hs & Hm & Hl & Hu & Hc).
    exists u, c, rest. rewrite Hl. simpl. auto.
  - intros E'.
    destruct (url_match_with_shape (cps "http://") s m eq_refl E') as (u & c & rest & Hs & Hm & Hl & Hu & Hc).
    exists u, c, rest. rewrite Hl. simpl. auto.
Qed.

Lemma take_until_app sep u r :
  Forall (fun c => c <> sep) u -> take_until sep (u ++ r) = u ++ take_until sep r.
Proof.
  induction 1 as [|c u Hc _ IH]; [reflexivity|].
  simpl. rewrite (proj2 (Nat.eqb_neq c sep) Hc). now rewrite IH.
Qed.

Lemma url_candidate_app u r :
  Forall (fun c => url_safe c = true) u -> url_candidate (u ++ r) = u ++ url_candidate r.
Proof.
  intros H. unfold url_candidate.
  assert (Hs : forall P : nat -> Prop,
             (forall c, url_safe c = true -> P c) -> Forall P u).
  { intros P HP. eapply Forall_impl; [|exact H]. exact HP. }
  rewrite take_until_app by (apply Hs; intros c Hc; apply (url_safe_spec c Hc)).
  rewrite take_until_app by (apply Hs; intros c Hc; apply (url_safe_spec c Hc)).
  rewrite take_until_app by (apply Hs; intros c Hc; apply (url_safe_spec c Hc)).
  rewrite take_until_app by (apply Hs; intros c Hc; apply (url_safe_spec c Hc)).
  reflexivity.
Qed.

Lemma rstrip_keep chars m x :
  m <> [] -> ~ In (last m 0) chars -> exists y, rstrip chars (m ++ x) = m ++ y.
Proof.
  intros Hm Hl.
  destruct (rstrip_spec chars (m ++ x)) as (w & E & Hw & _).
  destruct (app_eq_app _ _ _ _ E) as (l & [[E1 E2] | [E1 E2]]).
  - destruct l as [|a l'] using rev_ind.
    + exists []. rewrite app_nil_r in E1 |- *. symmetry. exact E1.
    + exfalso. apply Hl. rewrite E1, app_assoc, last_last.
      rewrite Forall_forall in Hw. apply Hw. rewrite E2.
      apply in_or_app. left. apply in_or_app. right. now left.
  - exists l. exact E1.
Qed.

Lemma strip_url_keep m x :
  m <> [] -> ~ In (last m 0) url_punct -> last m 0 <> char_rparen ->
  exists y, strip_url (m ++ x) = m ++ y.
Proof.
  intros Hm Hp Hr. unfold strip_url. cbv zeta.
  destruct (rstrip_keep url_punct m x Hm Hp) as (y1 & E1). rewrite E1.
  destruct (negb (existsb (Nat.eqb char_lparen) (m ++ y1))).
  - destruct (rstrip_keep [char_rparen] m y1 Hm) as (y2 & E2).
    + simpl. intuition.
    + rewrite E2. exact (rstrip_keep url_punct m y2 Hm Hp).
  - exact (rstrip_keep url_punct m y1 Hm Hp).
Qed.

(** The regex match at a position is kept whole by the cutting and stripping
    of the URL found there. *)
Lemma url_kept content i m :
  url_match (skipn i content) = Some m ->
  exists y, strip_url (url_candidate (tk_get_to_lineend content i)) = m ++ y.
Proof.
  intros E.
  destruct (url_match_shape _ _ E) as (u & c & rest & Es & -> & Hl & Hu & Hc).
  destruct (url_class_ok c Hc) as (Hs & Hp & Hr).
  assert (HF : Forall (fun x => url_safe x = true) (u ++ [c])).
  { apply Forall_app. split.
    - apply Forall_forall. intros x Hx. exact (proj1 (forallb_forall _ _) Hu x Hx).
    - constructor; [exact Hs | constructor]. }
  unfold tk_get_to_lineend. rewrite Es.
  replace (u ++ c :: rest) with ((u ++ [c]) ++ rest) by (now rewrite <- app_assoc).
  rewrite take_until_app
    by (eapply Forall_impl; [|exact HF]; intros x Hx; apply (url_safe_spec x Hx)).
  rewrite url_candidate_app by exact HF.
  apply strip_url_keep.
  - intros H. apply app_eq_nil in H as [_ H]. discriminate H.
  - now rewrite last_last.
  - now rewrite last_last.
Qed.

(** If the search only returns positions where its regex
    [https?://[a-z0-9:]] matches, every range [find_and_tag_urls] tags starts
    with the whole match ("http://" or "https://" and one more character):
    it is never empty and holds at least 8 characters. *)
Theorem find_and_tag_urls_cover tk_search
    (search_match : forall content from stop i,
        tk_search content from stop = Some i -> url_match (skipn i content) <> None)
    fuel content start stop :
  Forall (fun ab => exists m,
             url_match (skipn (fst ab) content) = Some m /\ 8 <= List.length m /\
             fst ab + List.length m <= snd ab /\
             tk_get content (fst ab) (fst ab + List.length m) = m)
    (find_and_tag_urls tk_search fuel content start stop).
Proof.
  revert start; induction fuel as [|fuel IH]; intros start; [constructor|].
  cbn [find_and_tag_urls].
  destruct (tk_search content start stop) as [a|] eqn:Ea; [|constructor].
  cbv zeta. constructor; [|apply IH].
  cbn [fst snd].
  pose proof (search_match _ _ _ _ Ea) as Hm.
  destruct (url_match (skipn a content)) as [m|] eqn:Em; [|congruence].
  exists m. split; [reflexivity|].
  destruct (url_match_shape _ _ Em) as (u & c & rest & Es & Hmu & Hl & _).
  destruct (url_kept content a m Em) as (y & Ey).
  split; [rewrite Hmu, length_app; simpl; lia|].
  split; [rewrite Ey, length_app; lia|].
  unfold tk_get. replace (a + List.length m - a) with (List.length m) by lia.
  rewrite Es. replace (u ++ c :: rest) with ((u ++ [c]) ++ rest) by (now rewrite <- app_assoc).
  rewrite <- Hmu, firstn_app, firstn_all, Nat.sub_diag, app_nil_r. reflexivity.
Qed.

Lemma add_range_after a b rs :
  Forall (fun r => snd r < a) rs -> add_range a b rs = rs ++ [(a, b)].
Proof.
  induction rs as [|[c d] rs IH]; intros H; [reflexivity|].
  inversion H as [|? ? Hd Hrs]; subst. cbn [fst snd] in Hd.
  simpl. rewrite (proj2 (Nat.ltb_lt d a) Hd). now rewrite IH.
Qed.

Lemma tag_add_all_after rs ranges lo :
  ranges_from lo ranges -> Forall (fun r => snd r < lo) rs ->
  tag_add_all rs ranges = rs ++ filter (fun ab => fst ab <? snd ab) ranges.
Proof.
  unfold tag_add_all.
  revert rs lo; induction ranges as [|[a b] ranges IH]; intros rs lo Hr Hrs.
  - simpl. now rewrite app_nil_r.
  - destruct Hr as (Ha & Hab & Hr). cbn [fold_left fst snd filter].
    unfold tag_add. destruct (a <? b) eqn:Eab.
    + rewrite add_range_after
        by (eapply Forall_impl; [|exact Hrs]; intros r Hlt; cbn beta in Hlt; lia).
      rewrite (IH _ (S b) Hr).
      * now rewrite <- app_assoc.
      * apply Forall_app. split; [|constructor; [simpl; lia | constructor]].
        eapply Forall_impl; [|exact Hrs]. intros r Hlt; cbn beta in Hlt; lia.
    + apply (IH _ (S b) Hr).
      eapply Forall_impl; [|exact Hrs]. intros r Hlt; cbn beta in Hlt; lia.
Qed.

Lemma ranges_from_filter lo rs :
  ranges_from lo rs -> ranges_from lo (filter (fun ab => fst ab <? snd ab) rs).
Proof.
  revert lo; induction rs as [|[a b] rs IH]; intros lo H; [exact I|].
  destruct H as (Ha & Hab & H). cbn [filter fst snd].
  destruct (a <? b).
  - simpl. split; [exact Ha|]. split; [exact Hab|]. now apply IH.
  - apply (ranges_from_weaken (S b)); [lia|]. now apply IH.
Qed.

Lemma ranges_from_app lo hi rs1 rs2 :
  ranges_from lo rs1 -> Forall (fun r => snd r < hi) rs1 -> lo <= hi ->
  ranges_from hi rs2 -> ranges_from lo (rs1 ++ rs2).
Proof.
  revert lo; induction rs1 as [|[a b] rs1 IH]; intros lo H1 Hf Hlo H2.
  - simpl. now apply (ranges_from_weaken hi).
  - destruct H1 as (Ha & Hab & H1). inversion Hf as [|? ? Hb Hf']; subst.
    cbn [fst snd] in Hb. simpl. split; [exact Ha|]. split; [exact Hab|].
    apply IH; auto.
Qed.

Lemma ranges_from_starts lo rs : ranges_from lo rs -> Forall (fun r => lo <= fst r) rs.
Proof.
  revert lo; induction rs as [|[a b] rs IH]; intros lo H; [constructor|].
  destruct H as (Ha & Hab & H). constructor; [exact Ha|].
  eapply Forall_impl; [|exact (IH _ H)]. intros r Hr; cbn beta in Hr; lia.
Qed.

Lemma tag_prevrange_none rs idx :
  Forall (fun r => idx <= fst r) rs -> tag_prevrange rs idx = None.
Proof.
  induction rs as [|[a b] rs IH]; intros H; [reflexivity|].
  inversion H as [|? ? Ha H']; subst. cbn [fst] in Ha. simpl.
  rewrite (IH H'). destruct (Nat.ltb_spec a idx); [lia | reflexivity].
Qed.

Lemma tag_prevrange_in lo rs a b c :
  ranges_from lo rs -> In (a, b) rs -> a <= c < b ->
  tag_prevrange rs (c + 1) = Some (a, b).
Proof.
  revert lo; induction rs as [|[a' b'] rs IH]; intros lo H Hin Hc; [destruct Hin|].
  destruct H as (Ha & Hab & H). simpl.
  destruct Hin as [E | Hin].
  - inversion E; subst a' b'.
    rewrite tag_prevrange_none.
    + destruct (Nat.ltb_spec a (c + 1)); [reflexivity | lia].
    + eapply Forall_impl; [|exact (ranges_from_starts _ _ H)].
      intros r Hr; cbn beta in Hr; lia.
  - now rewrite (IH _ H Hin Hc).
Qed.

(** Clicking any character of a range that [find_and_tag_urls] tagged
    "url" (first and last characters included) passes the text of exactly
    that range to the callback, when the ranges already tagged "url" end
    before [start]. *)
Theorem on_link_clicked_url tk_search
    (search_forward : forall content from stop i,
        tk_search content from stop = Some i -> from <= i)
    fuel content start stop (tag_ranges : string -> list (nat * nat)) a b c :
  ranges_from 0 (tag_ranges "url"%string) ->
  Forall (fun r => snd r < start) (tag_ranges "url"%string) ->
  In (a, b) (find_and_tag_urls tk_search fuel content start stop) ->
  a <= c < b ->
  on_link_clicked "url" (fun tag => if String.eqb tag "url" then
                             tag_add_all (tag_ranges "url"%string)
                               (find_and_tag_urls tk_search fuel content start stop)
                           else tag_ranges tag)
    content c = Ok ("url"%string, tk_get content a b).
Proof.
  intros Hr0 Hend Hin Hc.
  pose proof (find_and_tag_urls_ordered_aux tk_search search_forward fuel content start stop)
    as Hord.
  unfold on_link_clicked. cbn [String.eqb Ascii.eqb Bool.eqb andb].
  rewrite (tag_add_all_after _ _ start Hord Hend).
  rewrite (tag_prevrange_in 0 _ a b c).
  - reflexivity.
  - apply (ranges_from_app 0 start); [exact Hr0 | exact Hend | lia |].
    now apply ranges_from_filter.
  - apply in_or_app. right. apply filter_In. split; [exact Hin|].
    simpl. apply Nat.ltb_lt. lia.
  - exact Hc.
Qed.

(** ** Properties of [config_tags] *)

Lemma NoDup_app_notin (l1 l2 : list string) x : NoDup (l1 ++ l2) -> In x l2 -> ~ In x l1.
Proof.
  induction l1 as [|y l1 IH]; simpl; [tauto|].
  intros H Hx [<- | Hin]; inversion H; subst.
  - apply H2, in_or_app; auto.
  - exact (IH H3 Hx Hin).
Qed.

Lemma insert_after_app_l a t X Z :
  ~ In a X -> insert_after a t (X ++ Z) = X ++ insert_after a t Z.
Proof.
  induction X as [|x X IH]; simpl; [reflexivity|]. intros H.
  destruct (String.eqb_spec x a); [tauto|]. f_equal. auto.
Qed.

Lemma insert_after_app_r a t K Y :
  In a K -> insert_after a t (K ++ Y) = insert_after a t K ++ Y.
Proof.
  induction K as [|x K IH]; simpl; [tauto|]. intros H.
  destruct (String.eqb_spec x a); [reflexivity|].
  destruct H as [-> | H]; [congruence|]. rewrite IH by exact H. reflexivity.
Qed.

Lemma insert_after_perm a t L : In a L -> Permutation (insert_after a t L) (t :: L).
Proof.
  induction L as [|x L IH]; simpl; [tauto|]. intros H.
  destruct (String.eqb_spec x a); [apply perm_swap|].
  destruct H as [-> | H]; [congruence|].
  eapply perm_trans; [apply perm_skip, IH, H | apply perm_swap].
Qed.

Lemma insert_before_app_l a t X Z :
  ~ In a X -> insert_before a t (X ++ Z) = X ++ insert_before a t Z.
Proof.
  induction X as [|x X IH]; simpl; [reflexivity|]. intros H.
  destruct (String.eqb_spec x a); [tauto|]. f_equal. auto.
Qed.

Lemma insert_before_app_r a t K Y :
  In a K -> insert_before a t (K ++ Y) = insert_before a t K ++ Y.
Proof.
  induction K as [|x K IH]; simpl; [tauto|]. intros H.
  destruct (String.eqb_spec x a); [reflexivity|].
  destruct H as [-> | H]; [congruence|]. rewrite IH by exact H. reflexivity.
Qed.

Lemma insert_before_perm a t L : In a L -> Permutation (insert_before a t L) (t :: L).
Proof.
  induction L as [|x L IH]; simpl; [tauto|]. intros H.
  destruct (String.eqb_spec x a); [reflexivity|].
  destruct H as [-> | H]; [congruence|].
  eapply perm_trans; [apply perm_skip, IH, H | apply perm_swap].
Qed.

Lemma remove_perm t l :
  NoDup l -> In t l -> Permutation (t :: remove string_dec t l) l.
Proof.
  intros Hd Hin. destruct (in_split t l Hin) as (l1 & l2 & ->).
  pose proof (NoDup_remove_2 _ _ _ Hd) as Hn.
  rewrite remove_app. simpl. destruct (string_dec t t) as [_|]; [|congruence].
  rewrite !notin_remove by (intro; apply Hn, in_or_app; auto).
  apply Permutation_middle.
Qed.

Section Move.

Variable ins : string -> string -> list string -> list string.
Hypothesis ins_app_l : forall a t X Z, ~ In a X -> ins a t (X ++ Z) = X ++ ins a t Z.
Hypothesis ins_app_r : forall a t K Y, In a K -> ins a t (K ++ Y) = ins a t K ++ Y.
Hypothesis ins_perm : forall a t L, In a L -> Permutation (ins a t L) (t :: L).

Lemma move_shape l K a t :
  (exists X Y, l = X ++ K ++ Y) -> NoDup l -> In a K -> t <> a -> In t l ->
  (exists X Y, ins a t (remove string_dec t l) = X ++ ins a t (remove string_dec t K) ++ Y) /\
  NoDup (ins a t (remove string_dec t l)) /\
  (forall x, In x l -> In x (ins a t (remove string_dec t l))).
Proof.
  intros (X & Y & ->) Hd Ha Hta Ht.
  assert (HaX : ~ In a X) by exact (NoDup_app_notin X (K ++ Y) a Hd (in_or_app _ _ _ (or_introl Ha))).
  assert (HaK : In a (remove string_dec t K)) by (apply in_in_remove; auto).
  assert (HaR : In a (remove string_dec t (X ++ K ++ Y)))
    by (apply in_in_remove; [auto | apply in_or_app; right; apply in_or_app; auto]).
  assert (Hp : Permutation (ins a t (remove string_dec t (X ++ K ++ Y))) (X ++ K ++ Y))
    by (eapply perm_trans; [apply ins_perm, HaR | apply remove_perm; auto]).
  split; [|split].
  - exists (remove string_dec t X), (remove string_dec t Y).
    rewrite !remove_app, ins_app_l, ins_app_r; [reflexivity | exact HaK |].
    intro H. apply in_remove in H. tauto.
  - eapply Permutation_NoDup; [apply Permutation_sym, Hp | exact Hd].
  - intros x Hx. eapply Permutation_in; [apply Permutation_sym, Hp | exact Hx].
Qed.

End Move.

Lemma tag_exists_In w t : tag_exists w t = true <-> In t (tag_order w).
Proof.
  unfold tag_exists. rewrite existsb_exists. split.
  - intros (x & Hx & E). apply String.eqb_eq in E. now subst.
  - intros H. exists t. split; [exact H | apply String.eqb_refl].
Qed.

Lemma raise_shape w K a t :
  Shape K w -> In a K -> t <> a -> In t (tag_order w) ->
  exists w', tag_raise w t a = Some w' /\ Shape (raise_in t a K) w' /\
    (forall x, In x (tag_order w) -> In x (tag_order w')) /\
    tag_opts w' = tag_opts w /\ w_options w' = w_options w /\ tag_bindings w' = tag_bindings w.
Proof.
  intros [HK Hd] Ha Hta Ht.
  destruct (move_shape insert_after insert_after_app_l insert_after_app_r insert_after_perm
              (tag_order w) K a t HK Hd Ha Hta Ht) as (H1 & H2 & H3).
  unfold tag_raise.
  rewrite (proj2 (tag_exists_In w t) Ht).
  destruct HK as (X & Y & HK).
  rewrite (proj2 (tag_exists_In w a)) by (rewrite HK; apply in_or_app; right; apply in_or_app; auto).
  rewrite (proj2 (String.eqb_neq t a) Hta). cbn [andb].
  eexists. split; [reflexivity|]. cbn. split; [split; assumption|]. auto.
Qed.

Lemma lower_shape w K a t :
  Shape K w -> In a K -> t <> a -> In t (tag_order w) ->
  exists w', tag_lower w t a = Some w' /\ Shape (lower_in t a K) w' /\
    (forall x, In x (tag_order w) -> In x (tag_order w')) /\
    tag_opts w' = tag_opts w /\ w_options w' = w_options w /\ tag_bindings w' = tag_bindings w.
Proof.
  intros [HK Hd] Ha Hta Ht.
  destruct (move_shape insert_before insert_before_app_l insert_before_app_r insert_before_perm
              (tag_order w) K a t HK Hd Ha Hta Ht) as (H1 & H2 & H3).
  unfold tag_lower.
  rewrite (proj2 (tag_exists_In w t) Ht).
  destruct HK as (X & Y & HK).
  rewrite (proj2 (tag_exists_In w a)) by (rewrite HK; apply in_or_app; right; apply in_or_app; auto).
  rewrite (proj2 (String.eqb_neq t a) Hta). cbn [andb].
  eexists. split; [reflexivity|]. cbn. split; [split; assumption|]. auto.
Qed.

Lemma ensure_shape w K t :
  Shape K w -> Shape K (ensure_tag w t) /\ In t (tag_order (ensure_tag w t)) /\
    (forall x, In x (tag_order w) -> In x (tag_order (ensure_tag w t))).
Proof.
  intros [(X & Y & HK) Hd]. unfold ensure_tag.
  destruct (tag_exists w t) eqn:Et.
  - split; [split; eauto|]. split; [now apply tag_exists_In | auto].
  - assert (Hn : ~ In t (tag_order w)) by (intro H; apply tag_exists_In in H; congruence).
    cbn [tag_order]. split; [split|split].
    + exists X, (Y ++ [t]). rewrite HK. now rewrite !app_assoc.
    + apply (Permutation_NoDup (Permutation_cons_append (tag_order w) t)).
      now constructor.
    + apply in_or_app. right. now left.
    + intros x Hx. apply in_or_app. now left.
Qed.

Lemma ensure_fields w t :
  tag_opts (ensure_tag w t) = tag_opts w /\ w_options (ensure_tag w t) = w_options w /\
  tag_bindings (ensure_tag w t) = tag_bindings w.
Proof. unfold ensure_tag. destruct (tag_exists w t); auto. Qed.

Lemma configure_shape w K t kvs :
  Shape K w -> Shape K (tag_configure w t kvs) /\ In t (tag_order (tag_configure w t kvs)) /\
    (forall x, In x (tag_order w) -> In x (tag_order (tag_configure w t kvs))).
Proof. intros H. exact (ensure_shape w K t H). Qed.

Lemma configure_In w t kvs x :
  In x (tag_order w) \/ x = t -> In x (tag_order (tag_configure w t kvs)).
Proof.
  unfold tag_configure, ensure_tag. cbn [tag_order].
  destruct (tag_exists w t) eqn:Et; intros [H | ->]; auto.
  - now apply tag_exists_In.
  - apply in_or_app; auto.
  - apply in_or_app; right; now left.
Qed.

Lemma configure_opts_eq w t kvs :
  tag_opts (tag_configure w t kvs) = configure_opts (tag_opts w) t kvs /\
  w_options (tag_configure w t kvs) = w_options w /\
  tag_bindings (tag_configure w t kvs) = tag_bindings w.
Proof.
  unfold tag_configure. cbn [tag_opts w_options tag_bindings].
  destruct (ensure_fields w t) as (-> & -> & ->). auto.
Qed.

Lemma configure_Shape w K t kvs : Shape K w -> Shape K (tag_configure w t kvs).
Proof. intros H. exact (proj1 (configure_shape w K t kvs H)). Qed.

Lemma bind_shape w K t sq h : Shape K w -> Shape K (tag_bind w t sq h).
Proof. intros H. exact (proj1 (ensure_shape w K t H)). Qed.

Lemma tag_binding_bind w t sq h t' sq' :
  tag_binding (tag_bind w t sq h) t' sq' =
  if String.eqb t' t && String.eqb sq' sq then Some h else tag_binding w t' sq'.
Proof.
  unfold tag_binding, tag_bind, assoc_set. cbn [tag_bindings].
  destruct (ensure_fields w t) as (_ & _ & ->).
  destruct (String.eqb_spec t' t) as [-> | Hne].
  - cbn [assoc_get]. rewrite String.eqb_refl. cbn [andb assoc_get].
    destruct (String.eqb sq' sq); [reflexivity|].
    destruct (assoc_get t (tag_bindings w)); reflexivity.
  - cbn [assoc_get andb]. rewrite (proj2 (String.eqb_neq _ _) Hne). reflexivity.
Qed.

Ltac tag_neq := unfold fg_tag, bg_tag; discriminate.

Lemma lower_all_shape ts b : forall K w,
  Shape K w -> In b K -> Forall (fun t => t <> b /\ In t (tag_order w)) ts ->
  exists w', lower_all ts b w = Some w' /\
    Shape (fold_left (fun K t => lower_in t b K) ts K) w' /\
    (forall x, In x (tag_order w) -> In x (tag_order w')) /\
    tag_opts w' = tag_opts w /\ w_options w' = w_options w /\ tag_bindings w' = tag_bindings w.
Proof.
  induction ts as [|t ts IH]; intros K w HS Hb Hts.
  - exists w. simpl. split; [reflexivity|]. split; [exact HS|]. repeat split; auto.
  - inversion Hts as [|? ? [Htb Ht] Hts']; subst.
    destruct (lower_shape w K b t HS Hb Htb Ht) as (w1 & E1 & HS1 & Hin1 & Ho1 & Hw1 & Hb1).
    assert (Hb' : In b (lower_in t b K)).
    { unfold lower_in. eapply Permutation_in; [apply Permutation_sym, insert_before_perm|].
      - apply in_in_remove; [congruence | exact Hb].
      - right. apply in_in_remove; [congruence | exact Hb]. }
    destruct (IH _ w1 HS1 Hb') as (w2 & E2 & HS2 & Hin2 & Ho2 & Hw2 & Hb2).
    { eapply Forall_impl; [|exact Hts']. intros x [Hx1 Hx2]. auto. }
    exists w2. simpl. rewrite E1. simpl. rewrite E2.
    split; [reflexivity|]. split; [exact HS2|]. split; [auto|].
    split; [congruence|]. split; congruence.
Qed.

Lemma move_in_In (ins : string -> string -> list string -> list string)
    (ins_perm : forall a t L, In a L -> Permutation (ins a t L) (t :: L)) a t K x :
  In a K -> a <> t -> In x K -> x <> t -> In x (ins a t (remove string_dec t K)).
Proof.
  intros Ha Hat Hx Hxt.
  eapply Permutation_in; [apply Permutation_sym, ins_perm; now apply in_in_remove|].
  right. now apply in_in_remove.
Qed.

Lemma raise_all_shape ts a : forall K w,
  Shape K w -> In a K -> Forall (fun t => t <> a /\ In t (tag_order w)) ts ->
  exists w', raise_all ts a w = Some w' /\
    Shape (fold_left (fun K t => raise_in t a K) ts K) w' /\
    (forall x, In x (tag_order w) -> In x (tag_order w')) /\
    tag_opts w' = tag_opts w /\ w_options w' = w_options w /\ tag_bindings w' = tag_bindings w.
Proof.
  induction ts as [|t ts IH]; intros K w HS Ha Hts.
  - exists w. simpl. split; [reflexivity|]. split; [exact HS|]. repeat split; auto.
  - inversion Hts as [|? ? [Hta Ht] Hts']; subst.
    destruct (raise_shape w K a t HS Ha Hta Ht) as (w1 & E1 & HS1 & Hin1 & Ho1 & Hw1 & Hb1).
    assert (Ha' : In a (raise_in t a K))
      by (apply (move_in_In insert_after insert_after_perm); auto; congruence).
    destruct (IH _ w1 HS1 Ha') as (w2 & E2 & HS2 & Hin2 & Ho2 & Hw2 & Hb2).
    { eapply Forall_impl; [|exact Hts']. intros x [Hx1 Hx2]. auto. }
    exists w2. simpl. rewrite E1. simpl. rewrite E2.
    split; [reflexivity|]. split; [exact HS2|]. split; [auto|].
    split; [congruence|]. split; congruence.
Qed.

Lemma config_colors_shape cs : forall K w,
  Shape K w -> In "sent-privmsg"%string K -> In "received-privmsg"%string K ->
  exists w', config_colors cs w = Some w' /\ Shape (colors_K cs K) w' /\
    tag_opts w' = colors_opts cs (tag_opts w) /\
    w_options w' = w_options w /\ tag_bindings w' = tag_bindings w.
Proof.
  induction cs as [|[number hex] cs IH]; intros K w HS Hs Hr.
  - exists w. simpl. auto.
  - set (f := fg_tag number). set (b := bg_tag number).
    set (wa := tag_configure w f [("foreground", OColor hex)]%string).
    set (wb := tag_configure wa b [("background", OColor hex)]%string).
    assert (HSb : Shape K wb) by (apply configure_Shape, configure_Shape, HS).
    assert (Hfb : In f (tag_order wb)) by (apply configure_In; left; apply configure_In; now right).
    assert (Hbb : In b (tag_order wb)) by (apply configure_In; now right).
    assert (Hfs : f <> "sent-privmsg"%string) by tag_neq.
    assert (Hbs : b <> "sent-privmsg"%string) by tag_neq.
    assert (Hfr : f <> "received-privmsg"%string) by tag_neq.
    assert (Hbr : b <> "received-privmsg"%string) by tag_neq.
    destruct (raise_shape wb K _ f HSb Hs Hfs Hfb) as (w1 & E1 & HS1 & Hin1 & Ho1 & Hw1 & Hb1).
    assert (Hs1 : In "sent-privmsg"%string (raise_in f "sent-privmsg" K))
      by (apply (move_in_In insert_after insert_after_perm); auto).
    assert (Hr1 : In "received-privmsg"%string (raise_in f "sent-privmsg" K))
      by (apply (move_in_In insert_after insert_after_perm); auto).
    destruct (raise_shape w1 _ _ b HS1 Hs1 Hbs (Hin1 _ Hbb)) as (w2 & E2 & HS2 & Hin2 & Ho2 & Hw2 & Hb2).
    assert (Hr2 : In "received-privmsg"%string (raise_in b "sent-privmsg" (raise_in f "sent-privmsg" K)))
      by (apply (move_in_In insert_after insert_after_perm); auto).
    destruct (raise_shape w2 _ _ f HS2 Hr2 Hfr (Hin2 _ (Hin1 _ Hfb)))
      as (w3 & E3 & HS3 & Hin3 & Ho3 & Hw3 & Hb3).
    assert (Hr3 : In "received-privmsg"%string
                    (raise_in f "received-privmsg"
                       (raise_in b "sent-privmsg" (raise_in f "sent-privmsg" K))))
      by (apply (move_in_In insert_after insert_after_perm); auto).
    destruct (raise_shape w3 _ _ b HS3 Hr3 Hbr (Hin3 _ (Hin2 _ (Hin1 _ Hbb))))
      as (w4 & E4 & HS4 & Hin4 & Ho4 & Hw4 & Hb4).
    assert (Hs4 : In "sent-privmsg"%string
                    (raise_in b "received-privmsg"
                      (raise_in f "received-privmsg"
                        (raise_in b "sent-privmsg" (raise_in f "sent-privmsg" K))))).
    { assert (Hs2 : In "sent-privmsg"%string (raise_in b "sent-privmsg" (raise_in f "sent-privmsg" K)))
        by (apply (move_in_In insert_after insert_after_perm); auto).
      apply (move_in_In insert_after insert_after_perm); auto.
      apply (move_in_In insert_after insert_after_perm); auto. }
    assert (Hr4 : In "received-privmsg"%string
                    (raise_in b "received-privmsg"
                      (raise_in f "received-privmsg"
                        (raise_in b "sent-privmsg" (raise_in f "sent-privmsg" K)))))
      by (apply (move_in_In insert_after insert_after_perm); auto).
    destruct (IH _ w4 HS4 Hs4 Hr4) as (w5 & E5 & HS5 & Ho5 & Hw5 & Hb5).
    exists w5. cbn [config_colors]. fold f b. fold wa wb.
    rewrite E1. cbn [obind]. rewrite E2. cbn [obind]. rewrite E3. cbn [obind]. rewrite E4.
    cbn [obind]. rewrite E5. split; [reflexivity|]. split; [exact HS5|].
    destruct (configure_opts_eq w f [("foreground", OColor hex)]%string) as (Oa & Wa & Ba).
    destruct (configure_opts_eq wa b [("background", OColor hex)]%string) as (Ob & Wb & Bb).
    fold wa in Oa, Wa, Ba. fold wb in Ob, Wb, Bb.
    split; [|split; congruence].
    rewrite Ho5, Ho4, Ho3, Ho2, Ho1, Ob, Oa. reflexivity.
Qed.

Lemma bind_clickable_shape ts c : forall K w,
  Shape K w -> Shape K (bind_clickable ts c w).
Proof.
  induction ts as [|t ts IH]; intros K w HS; [exact HS|].
  cbn [bind_clickable]. apply IH. repeat apply bind_shape. exact HS.
Qed.

Lemma In_by_existsb x l : existsb (String.eqb x) l = true -> In x l.
Proof.
  intros H. apply existsb_exists in H as (y & Hy & E).
  apply String.eqb_eq in E. now subst.
Qed.

(** [config_tags] succeeds on every widget whose tags are unique, and
    leaves its tags so that, by increasing priority, info, error,
    sent-privmsg, received-privmsg, background-15, foreground-15, ...,
    background-0, foreground-0, pinged, other-nick, self-nick, channel and
    history-selection follow each other with no other tag between them. *)
Theorem config_tags_priorities w0 :
  NoDup (tag_order w0) ->
  exists w, config_tags w0 = Some w /\ NoDup (tag_order w) /\
    exists X Y, tag_order w = X ++ config_tags_stack ++ Y.
Proof.
  intros Hd. unfold config_tags.
  match goal with |- context [lower_all ?ts ?b ?wc] => set (w1 := wc) end.
  assert (HS1 : Shape [] w1).
  { unfold w1. repeat (apply configure_Shape).
    split; [exists (tag_order w0), []; simpl; now rewrite app_nil_r | exact Hd]. }
  assert (Hin : Forall (fun x => In x (tag_order w1))
                  ["pinged"; "info"; "error"; "sent-privmsg"; "received-privmsg";
                   "history-selection"; "channel"; "self-nick"; "other-nick"]%string).
  { unfold w1. repeat apply Forall_cons; try apply Forall_nil; cbv beta;
      do 12 (try (apply configure_In; first [right; reflexivity | left])). }
  rewrite Forall_forall in Hin.
  assert (HSp : Shape ["pinged"%string] w1).
  { destruct HS1 as [_ Hd1].
    destruct (in_split _ _ (Hin "pinged"%string (or_introl eq_refl))) as (X & Y & E).
    split; [exists X, Y; exact E | exact Hd1]. }
  destruct (lower_all_shape ["info"; "error"; "sent-privmsg"; "received-privmsg"]%string "pinged"
              _ w1 HSp (or_introl eq_refl)) as (w2 & E2 & HS2 & Hin2 & _).
  { repeat apply Forall_cons; try apply Forall_nil;
      (split; [discriminate | apply Hin, In_by_existsb; reflexivity]). }
  rewrite E2. cbn [obind].
  destruct (raise_all_shape ["history-selection"; "channel"; "self-nick"; "other-nick"]%string
              "pinged" _ w2 HS2) as (w3 & E3 & HS3 & Hin3 & _).
  { apply In_by_existsb. vm_compute. reflexivity. }
  { repeat apply Forall_cons; try apply Forall_nil;
      (split; [discriminate | apply Hin2, Hin, In_by_existsb; reflexivity]). }
  rewrite E3. cbn [obind].
  destruct (config_colors_shape MIRC_COLORS _ w3 HS3) as (w4 & E4 & HS4 & _).
  { apply In_by_existsb. vm_compute. reflexivity. }
  { apply In_by_existsb. vm_compute. reflexivity. }
  rewrite E4. cbn [obind].
  eexists. split; [reflexivity|].
  destruct (bind_clickable_shape ["url"; "other-nick"]%string (widget_cget w4 "cursor") _ w4 HS4)
    as [HX Hd5].
  split; [exact Hd5|].
  replace config_tags_stack with
    (colors_K MIRC_COLORS
       (fold_left (fun K t => raise_in t "pinged" K)
          ["history-selection"; "channel"; "self-nick"; "other-nick"]%string
          (fold_left (fun K t => lower_in t "pinged" K)
             ["info"; "error"; "sent-privmsg"; "received-privmsg"]%string ["pinged"%string])))
    by (vm_compute; reflexivity).
  exact HX.
Qed.

Lemma tag_lower_fields w t b w' :
  tag_lower w t b = Some w' ->
  tag_opts w' = tag_opts w /\ w_options w' = w_options w /\ tag_bindings w' = tag_bindings w.
Proof.
  unfold tag_lower. destruct (tag_exists w t && tag_exists w b); [|discriminate].
  destruct (String.eqb t b); intros E; inversion E; subst; auto.
Qed.

Lemma tag_raise_fields w t a w' :
  tag_raise w t a = Some w' ->
  tag_opts w' = tag_opts w /\ w_options w' = w_options w /\ tag_bindings w' = tag_bindings w.
Proof.
  unfold tag_raise. destruct (tag_exists w t && tag_exists w a); [|discriminate].
  destruct (String.eqb t a); intros E; inversion E; subst; auto.
Qed.

Lemma lower_all_fields ts b : forall w w',
  lower_all ts b w = Some w' ->
  tag_opts w' = tag_opts w /\ w_options w' = w_options w /\ tag_bindings w' = tag_bindings w.
Proof.
  induction ts as [|t ts IH]; intros w w' E; [inversion E; auto|].
  cbn [lower_all] in E. destruct (tag_lower w t b) as [w1|] eqn:E1; [|discriminate].
  cbn [obind] in E. destruct (tag_lower_fields _ _ _ _ E1) as (? & ? & ?).
  destruct (IH _ _ E) as (? & ? & ?). split; [congruence | split; congruence].
Qed.

Lemma raise_all_fields ts a : forall w w',
  raise_all ts a w = Some w' ->
  tag_opts w' = tag_opts w /\ w_options w' = w_options w /\ tag_bindings w' = tag_bindings w.
Proof.
  induction ts as [|t ts IH]; intros w w' E; [inversion E; auto|].
  cbn [raise_all] in E. destruct (tag_raise w t a) as [w1|] eqn:E1; [|discriminate].
  cbn [obind] in E. destruct (tag_raise_fields _ _ _ _ E1) as (? & ? & ?).
  destruct (IH _ _ E) as (? & ? & ?). split; [congruence | split; congruence].
Qed.

Lemma config_colors_fields cs : forall w w',
  config_colors cs w = Some w' ->
  tag_opts w' = colors_opts cs (tag_opts w) /\ w_options w' = w_options w /\
  tag_bindings w' = tag_bindings w.
Proof.
  induction cs as [|[number hex] cs IH]; intros w w' E; [inversion E; auto|].
  cbn [config_colors] in E.
  set (wa := tag_configure w (fg_tag number) _) in E.
  set (wb := tag_configure wa (bg_tag number) _) in E.
  destruct (configure_opts_eq w (fg_tag number) [("foreground", OColor hex)]%string) as (Oa & Wa & Ba).
  destruct (configure_opts_eq wa (bg_tag number) [("background", OColor hex)]%string) as (Ob & Wb & Bb).
  fold wa in Oa, Wa, Ba. fold wb in Ob, Wb, Bb.
  destruct (tag_raise wb _ _) as [w1|] eqn:E1; [|discriminate]. cbn [obind] in E.
  destruct (tag_raise w1 _ _) as [w2|] eqn:E2; [|discriminate]. cbn [obind] in E.
  destruct (tag_raise w2 _ _) as [w3|] eqn:E3; [|discriminate]. cbn [obind] in E.
  destruct (tag_raise w3 _ _) as [w4|] eqn:E4; [|discriminate]. cbn [obind] in E.
  destruct (tag_raise_fields _ _ _ _ E1) as (O1 & W1 & B1).
  destruct (tag_raise_fields _ _ _ _ E2) as (O2 & W2 & B2).
  destruct (tag_raise_fields _ _ _ _ E3) as (O3 & W3 & B3).
  destruct (tag_raise_fields _ _ _ _ E4) as (O4 & W4 & B4).
  destruct (IH _ _ E) as (O5 & W5 & B5).
  split; [|split; congruence].
  rewrite O5, O4, O3, O2, O1, Ob, Oa. reflexivity.
Qed.

Lemma bind_fields w t sq h :
  tag_opts (tag_bind w t sq h) = tag_opts w /\ w_options (tag_bind w t sq h) = w_options w.
Proof. unfold tag_bind. cbn. destruct (ensure_fields w t) as (-> & -> & _). auto. Qed.

Lemma bind_clickable_fields ts c : forall w,
  tag_opts (bind_clickable ts c w) = tag_opts w /\
  w_options (bind_clickable ts c w) = w_options w.
Proof.
  induction ts as [|t ts IH]; intros w; [auto|].
  cbn [bind_clickable]. destruct (IH (tag_bind (tag_bind (tag_bind w t "<Button-1>" (LinkClicked t))
                                    t "<Enter>" (SetCursor "hand2")) t "<Leave>" (SetCursor c)))
    as (-> & ->).
  destruct (bind_fields w t "<Button-1>" (LinkClicked t)) as (O1 & W1).
  destruct (bind_fields (tag_bind w t "<Button-1>" (LinkClicked t)) t "<Enter>" (SetCursor "hand2"))
    as (O2 & W2).
  destruct (bind_fields (tag_bind (tag_bind w t "<Button-1>" (LinkClicked t)) t "<Enter>"
                           (SetCursor "hand2")) t "<Leave>" (SetCursor c)) as (O3 & W3).
  split; congruence.
Qed.

Lemma tag_opts_configure w t kvs : tag_opts (tag_configure w t kvs) = configure_opts (tag_opts w) t kvs.
Proof. exact (proj1 (configure_opts_eq w t kvs)). Qed.

Lemma w_options_configure w t kvs : w_options (tag_configure w t kvs) = w_options w.
Proof. exact (proj1 (proj2 (configure_opts_eq w t kvs))). Qed.

Lemma config_tags_eq w :
  config_tags w =
  (w <-? lower_all ["info"; "error"; "sent-privmsg"; "received-privmsg"] "pinged"
            (config_tags_prelude w) ;;
   w <-? raise_all ["history-selection"; "channel"; "self-nick"; "other-nick"] "pinged" w ;;
   w <-? config_colors MIRC_COLORS w ;;
   Some (bind_clickable ["url"; "other-nick"] (widget_cget w "cursor") w))%string.
Proof. reflexivity. Qed.
(** Taking apart a successful run of [config_tags]. *)
Ltac config_tags_inv E :=
  rewrite config_tags_eq in E;
  destruct (lower_all _ _ _) as [w2|] eqn:E2; [|discriminate]; cbn [obind] in E;
  destruct (raise_all _ _ _) as [w3|] eqn:E3; [|discriminate]; cbn [obind] in E;
  destruct (config_colors _ _) as [w4|] eqn:E4; [|discriminate]; cbn [obind] in E;
  injection E as <-;
  match goal with H : lower_all _ _ _ = Some _ |- _ =>
    destruct (lower_all_fields _ _ _ _ H) as (O2 & W2 & B2) end;
  match goal with H : raise_all _ _ _ = Some _ |- _ =>
    destruct (raise_all_fields _ _ _ _ H) as (O3 & W3 & B3) end;
  match goal with H : config_colors _ _ = Some _ |- _ =>
    destruct (config_colors_fields _ _ _ H) as (O4 & W4 & B4) end.

Lemma colors_lookup n opts :
  n <= 15 -> exists hex, In (n, hex) MIRC_COLORS /\
    assoc_get "foreground" (tag_options (colors_opts MIRC_COLORS opts) (fg_tag n)) = Some (OColor hex) /\
    assoc_get "background" (tag_options (colors_opts MIRC_COLORS opts) (bg_tag n)) = Some (OColor hex).
Proof.
  intros Hn.
  assert (Hc : In n (seq 0 16)) by (apply in_seq; lia).
  simpl in Hc.
  repeat (destruct Hc as [<- | Hc]); try contradiction;
    (eexists; split; [simpl; repeat (first [left; reflexivity | right]) |
                      split; vm_compute; reflexivity]).
Qed.

(** Every tag that [parse_text] puts on a run is configured by
    [config_tags]: foreground-<n> with foreground [_MIRC_COLORS[n]],
    background-<n> with background [_MIRC_COLORS[n]], "underline" with
    underline on. *)
Theorem parse_text_tags_configured w0 w s :
  config_tags w0 = Some w ->
  exists runs, parse_text s = Ok runs /\
    Forall (fun r => Forall (fun tg =>
        (exists n hex, tg = fg_tag n /\ In (n, hex) MIRC_COLORS /\
                       tag_option w tg "foreground" = Some (OColor hex)) \/
        (exists n hex, tg = bg_tag n /\ In (n, hex) MIRC_COLORS /\
                       tag_option w tg "background" = Some (OColor hex)) \/
        (tg = "underline"%string /\ tag_option w tg "underline" = Some (OBool true)))
      (snd r)) runs.
Proof.
  intros E. config_tags_inv E.
  match goal with |- context [tag_option ?w _ _] =>
    assert (Ho : tag_opts w = colors_opts MIRC_COLORS (tag_opts w3))
      by (cbn [bind_clickable]; rewrite !(proj1 (bind_fields _ _ _ _)), O4; reflexivity) end.
  rewrite O3, O2 in Ho. cbv beta zeta delta [config_tags_prelude] in Ho.
  rewrite !tag_opts_configure in Ho. cbn [tag_opts widget_config] in Ho.
  destruct (parse_text_tags_shape_aux s) as (runs & Er & HF).
  exists runs. split; [exact Er|].
  eapply Forall_impl; [|exact HF]. intros r (f & b & u & -> & Hf & Hb & Hu).
  unfold tag_option. rewrite Ho.
  apply Forall_app; split; [|apply Forall_app; split].
  - destruct Hf as [-> | (n & Hn & ->)]; [constructor|].
    constructor; [|constructor]. left.
    match goal with |- context [colors_opts MIRC_COLORS ?o] =>
      destruct (colors_lookup n o Hn) as (hex & Hin & Hfg & _) end.
    exists n, hex. split; [reflexivity|]. split; [exact Hin | exact Hfg].
  - destruct Hb as [-> | (n & Hn & ->)]; [constructor|].
    constructor; [|constructor]. right; left.
    match goal with |- context [colors_opts MIRC_COLORS ?o] =>
      destruct (colors_lookup n o Hn) as (hex & Hin & _ & Hbg) end.
    exists n, hex. split; [reflexivity|]. split; [exact Hin | exact Hbg].
  - destruct Hu as [-> | ->]; [constructor|].
    constructor; [|constructor]. right; right. split; [reflexivity|].
    reflexivity.
Qed.

(** After [config_tags], clicking on "url" or "other-nick" calls
    [_on_link_clicked] for that tag, entering it sets the cursor "hand2" and
    leaving it restores the cursor the widget had before [config_tags]. *)
Theorem config_tags_bindings w0 w :
  config_tags w0 = Some w ->
  forall tag, In tag ["url"; "other-nick"]%string ->
    tag_binding w tag "<Button-1>" = Some (LinkClicked tag) /\
    tag_binding w tag "<Enter>" = Some (SetCursor "hand2") /\
    tag_binding w tag "<Leave>" = Some (SetCursor (widget_cget w0 "cursor")).
Proof.
  intros E. config_tags_inv E.
  assert (Hc : widget_cget w4 "cursor" = widget_cget w0 "cursor").
  { unfold widget_cget. rewrite W4, W3, W2. cbv beta zeta delta [config_tags_prelude].
    rewrite !w_options_configure. reflexivity. }
  rewrite Hc.
  intros tag Htag.
  destruct Htag as [<- | [<- | []]]; cbn [bind_clickable]; rewrite ?Hc, !tag_binding_bind;
    (split; [reflexivity | split; reflexivity]).
Qed.

(** ** Witnesses of the further properties *)

Lemma http_search_fuel_forward fuel : forall content i stop j,
  http_search_fuel fuel content i stop = Some j -> i <= j.
Proof.
  induction fuel as [|fuel IH]; intros content i stop j E; [discriminate|].
  cbn [http_search_fuel] in E.
  destruct (stop <=? i); [discriminate|].
  destruct (startswith (skipn i content) (cps "http")).
  - inversion E; lia.
  - apply IH in E. lia.
Qed.

Lemma http_search_forward content from stop i :
  http_search content from stop = Some i -> from <= i.
Proof. apply http_search_fuel_forward. Qed.

(** "ab" followed by \x034 and "x". *)
Lemma parse_text_prefix_runs_witness :
  exists rp rq, parse_text (cps "ab") = Ok rp /\
                parse_text (cps "ab" ++ [char_ETX; 52] ++ cps "x") = Ok (rp ++ rq).
Proof. apply parse_text_prefix_runs. vm_compute. discriminate. Defined.

(** "a" \x02 \x1f "b". *)
Lemma parse_text_bold_ignored_witness :
  parse_text (cps "a" ++ char_STX :: [char_US] ++ cps "b") = parse_text (cps "a" ++ [char_US] ++ cps "b").
Proof. apply parse_text_bold_ignored. right. vm_compute. discriminate. Defined.

Lemma url_search_fuel_match fuel : forall content i stop j,
  url_search_fuel fuel content i stop = Some j -> url_match (skipn j content) <> None.
Proof.
  induction fuel as [|fuel IH]; intros content i stop j E; [discriminate|].
  cbn [url_search_fuel] in E.
  destruct (stop <=? i); [discriminate|].
  destruct (word_start content i &&
            match url_match (skipn i content) with Some _ => true | None => false end) eqn:Ew.
  - inversion E; subst j. apply andb_prop in Ew as [_ Ew].
    destruct (url_match (skipn i content)); [discriminate | discriminate Ew].
  - exact (IH _ _ _ _ E).
Qed.

Lemma url_search_match content from stop i :
  url_search content from stop = Some i -> url_match (skipn i content) <> None.
Proof. apply url_search_fuel_match. Qed.

Lemma find_and_tag_urls_ordered_witness :
  ranges_from 0 (find_and_tag_urls http_search 10 url_sample 0 40).
Proof. exact (find_and_tag_urls_ordered http_search http_search_forward 10 url_sample 0 40). Defined.

(** The two URLs of [url_sample] found by the regex search. *)
Lemma find_and_tag_urls_cover_witness :
  Forall (fun ab => exists m,
             url_match (skipn (fst ab) url_sample) = Some m /\ 8 <= List.length m /\
             fst ab + List.length m <= snd ab /\
             tk_get url_sample (fst ab) (fst ab + List.length m) = m)
    (find_and_tag_urls url_search 10 url_sample 0 40).
Proof. exact (find_and_tag_urls_cover url_search url_search_match 10 url_sample 0 40). Defined.

(** Clicking the first character of the second URL of [url_sample]. *)
Lemma on_link_clicked_url_witness :
  on_link_clicked "url" (fun tag => if String.eqb tag "url" then
                             tag_add_all [] (find_and_tag_urls http_search 10 url_sample 0 40)
                           else [])
    url_sample 23 = Ok ("url"%string, tk_get url_sample 23 33).
Proof.
  apply (on_link_clicked_url http_search http_search_forward 10 url_sample 0 40 (fun _ => [])).
  - exact I.
  - constructor.
  - vm_compute. right. left. reflexivity.
  - lia.
Defined.

Lemma config_tags_priorities_witness :
  exists w, config_tags fresh_widget = Some w /\ NoDup (tag_order w) /\
    exists X Y, tag_order w = X ++ config_tags_stack ++ Y.
Proof.
  apply config_tags_priorities. vm_compute. constructor; [intros []|constructor].
Defined.

(** \x034,12 \x1f "hi". *)
Lemma parse_text_tags_configured_witness :
  config_tags fresh_widget = Some configured_fresh_widget /\
  exists runs, parse_text ([char_ETX; 52; char_comma; 49; 50; char_US] ++ cps "hi") = Ok runs /\
    Forall (fun r => Forall (fun tg =>
        (exists n hex, tg = fg_tag n /\ In (n, hex) MIRC_COLORS /\
           tag_option configured_fresh_widget tg "foreground" = Some (OColor hex)) \/
        (exists n hex, tg = bg_tag n /\ In (n, hex) MIRC_COLORS /\
           tag_option configured_fresh_widget tg "background" = Some (OColor hex)) \/
        (tg = "underline"%string /\
           tag_option configured_fresh_widget tg "underline" = Some (OBool true)))
      (snd r)) runs.
Proof.
  assert (E : config_tags fresh_widget = Some configured_fresh_widget)
    by (vm_compute; reflexivity).
  split; [exact E|].
  exact (parse_text_tags_configured fresh_widget configured_fresh_widget _ E).
Defined.

Lemma config_tags_bindings_witness :
  config_tags fresh_widget = Some configured_fresh_widget /\
  tag_binding configured_fresh_widget "url" "<Button-1>" = Some (LinkClicked "url") /\
  tag_binding configured_fresh_widget "url" "<Enter>" = Some (SetCursor "hand2") /\
  tag_binding configured_fresh_widget "url" "<Leave>" = Some (SetCursor (widget_cget fresh_widget "cursor")).
Proof.
  assert (E : config_tags fresh_widget = Some configured_fresh_widget)
    by (vm_compute; reflexivity).
  split; [exact E|].
  exact (config_tags_bindings fresh_widget configured_fresh_widget E "url" (or_introl eq_refl)).
Defined.
